(** * DatasetConversion: a shallow embedding of [dataset_conversion_new.py]

    The development follows the Python class [DatasetConversion]: the
    constructor, the sliding-window extractor [txt_to_dataset] with its
    doubling buffers, and the decoder [dataset_to_str] with its
    scale / round / clamp quantiser.

    Conventions.
    - Python [int]s are [Z]; floor division [//] is [Z.div].
    - The entries of the timestep matrices, which [txt_to_dataset] only
      copies, are rationals ([Q]).
    - The prediction values that [dataset_to_str] computes with are
      floating-point values of a binary format ([npfloat]): a NaN, an
      infinity or a finite value, every product rounded to the format.
    - A 2-D array is the list of its rows; a 3-D array is the list of its
      2-D slices along the first axis.
    - A [dict] is a stdpp [gmap].
    - A call either returns, raises, or ends the process: [outcome].
    - A method body runs on the instance and may assign its attributes:
      [method]. *)

From Stdlib Require Import ZArith QArith Qround Qabs Qpower Lia Lqa Ascii String.
From Stdlib Require Import DecimalString.
From stdpp Require Import base option list gmap strings.

Local Open Scope Z_scope.

(** ** Outcomes of a Python call *)

Inductive pyexn : Type :=
| TypeError
| ValueError
| IndexError
| KeyError
| ZeroDivisionError
| UnboundLocalError.

Inductive outcome (A : Type) : Type :=
| Ok (a : A)            (* the call returned [a] *)
| Raise (e : pyexn)     (* an exception propagated to the caller *)
| Exit (code : Z).      (* [exit(code)]: the process terminates *)

Arguments Ok {A} a.
Arguments Raise {A} e.
Arguments Exit {A} code.

#[global] Instance outcome_ret : MRet outcome := fun A a => Ok a.

#[global] Instance outcome_bind : MBind outcome := fun A B k m =>
  match m with
  | Ok a => k a
  | Raise e => Raise e
  | Exit c => Exit c
  end.

(** Left fold of a fallible loop body over the values of an iterator. *)
Fixpoint for_each {S I : Type} (body : S -> I -> outcome S)
    (it : list I) (s : S) : outcome S :=
  match it with
  | [] => Ok s
  | i :: it' => s' ← body s i; for_each body it' s'
  end.

(** [range(n)]: 0, 1, ..., n-1; empty when [n <= 0]. *)
Definition range (n : Z) : list Z := map Z.of_nat (seq 0 (Z.to_nat n)).

(** ** Sequences and arrays *)

(** A slice bound [i] on a sequence of length [len]: negative bounds count
    from the end, and the result is clipped to [0 .. len]. *)
Definition slice_bound (len i : Z) : Z :=
  if i <? 0 then Z.max (i + len) 0 else Z.min i len.

(** [l[a:b]] *)
Definition py_slice {A : Type} (a b : Z) (l : list A) : list A :=
  let len := Z.of_nat (length l) in
  let s := slice_bound len a in
  let e := slice_bound len b in
  take (Z.to_nat (e - s)) (drop (Z.to_nat s) l).

(** [l[:b]] *)
Definition py_slice_to {A : Type} (b : Z) (l : list A) : list A :=
  py_slice 0 b l.

(** The position an index [k] denotes in a sequence of length [len]:
    negative indices count from the end; out of range is [IndexError]. *)
Definition py_index (len k : Z) : outcome nat :=
  let k' := if k <? 0 then k + len else k in
  if (0 <=? k') && (k' <? len) then Ok (Z.to_nat k') else Raise IndexError.

Abbreviation matrix := (list (list Q)).          (* 2-D ndarray, by rows *)
Abbreviation tensor := (list (list (list Q))).   (* 3-D ndarray *)

Definition shape0 (m : matrix) : Z := Z.of_nat (length m).
Definition shape1 (m : matrix) : Z :=
  match m with
  | [] => 0
  | r :: _ => Z.of_nat (length r)
  end.

(** [m[:, a:b]] *)
Definition slice_cols (a b : Z) (m : matrix) : matrix := map (py_slice a b) m.

(** [m.reshape(1, m.shape[0], n)] applied to a column slice of [m]: the
    element count must be [m.shape[0] * n], that is every row has [n]
    entries; the rows are then kept as they are. *)
Definition reshape_1 (n : Z) (m : matrix) : outcome matrix :=
  if forallb (fun r => Z.of_nat (length r) =? n) m then Ok m
  else Raise ValueError.

Definition NOTES : nat := 128.

(** [np.zeros((k, 128, n))]; a negative dimension is a [ValueError]. *)
Definition np_zeros_row (n : Z) : matrix :=
  repeat (repeat 0%Q (Z.to_nat n)) NOTES.

Definition np_zeros (k n : Z) : outcome tensor :=
  if (k <? 0) || (n <? 0) then Raise ValueError
  else Ok (repeat (np_zeros_row n) (Z.to_nat k)).

(** The value stored by [T[k] = v] where [T[k]] has shape [(128, n)] and
    [v] has shape [(1, r, n)]: the leading axis is dropped and [v] is
    broadcast along the rows, which needs [r = 128] or [r = 1]. *)
Definition broadcast_rows (v : matrix) : outcome matrix :=
  if (length v =? NOTES)%nat then Ok v
  else match v with
       | [r] => Ok (repeat r NOTES)
       | _ => Raise ValueError
       end.

(** [T[k] = v] *)
Definition setitem (T : tensor) (k : Z) (v : matrix) : outcome tensor :=
  i ← py_index (Z.of_nat (length T)) k;
  v' ← broadcast_rows v;
  Ok (<[i := v']> T).

(** ** The conversion session *)

Definition DEFAULT_NUM_INPUT : Z := 16.
Definition DEFAULT_NUM_OUTPUT : Z := 1.

(** The attributes of a [DatasetConversion] instance. *)
Record DatasetConversion : Type := mkDC {
  data_to_int : gmap string Z;
  int_to_data : gmap Z string;
  dir_path : string;
  sep_by_type : string
}.

(** [DatasetConversion(directory_path, sep_by_type)].  On an unrecognised
    [sep_by_type] the constructor prints a message and calls [exit(1)]. *)
Definition __init__ (directory_path sep : string) : outcome DatasetConversion :=
  if bool_decide (sep ∈ ["word"; "char"]) then
    Ok {| data_to_int := ∅; int_to_data := ∅;
          dir_path := directory_path; sep_by_type := sep |}
  else Exit 1.

(** ** [txt_to_dataset] *)

(** Line 72: [DEFAULT_NUM_INPUT if input_window_size is None else input_window_size] *)
Definition num_input_size (input_window_size : option Z) : Z :=
  match input_window_size with
  | None => DEFAULT_NUM_INPUT
  | Some n => n
  end.

(** Line 73: [DEFAULT_NUM_OUTPUT if input_window_size is None else output_window_size];
    the test is on [input_window_size], so the result is [None] when only
    the input window size is supplied. *)
Definition num_output_size (input_window_size output_window_size : option Z)
  : option Z :=
  match input_window_size with
  | None => Some DEFAULT_NUM_OUTPUT
  | Some _ => output_window_size
  end.

(** [a + b] with [b] possibly [None]. *)
Definition add_int (a : Z) (b : option Z) : outcome Z :=
  match b with
  | Some b => Ok (a + b)
  | None => Raise TypeError
  end.

(** [a // b] *)
Definition floordiv (a b : Z) : outcome Z :=
  if b =? 0 then Raise ZeroDivisionError else Ok (a / b).

(** Line 97: the number of examples computed for a file of width [T]. *)
Definition num_examples (T total_size_per_feed step : Z) : outcome Z :=
  floordiv (T - total_size_per_feed) step.

(** Lines 105-106 and 108-109. *)
Definition input_x (dataset : matrix) (idx step nin : Z) : outcome matrix :=
  reshape_1 nin (slice_cols (idx * step) (idx * step + nin) dataset).

Definition output_y (dataset : matrix) (idx step nin total nout : Z)
  : outcome matrix :=
  reshape_1 nout (slice_cols (idx * step + nin) (idx * step + total) dataset).

(** The accumulating buffers and the size of the next extension. *)
Record buffers : Type := mkBuf {
  buf_X : tensor;
  buf_Y : tensor;
  extend_sz : Z
}.

(** Lines 111-114: extend both buffers when the target row is past the end. *)
Definition grow (nin nout : Z) (k : Z) (b : buffers) : outcome buffers :=
  if k >=? Z.of_nat (length (buf_X b)) then
    zx ← np_zeros (extend_sz b) nin;
    zy ← np_zeros (extend_sz b) nout;
    Ok {| buf_X := buf_X b ++ zx; buf_Y := buf_Y b ++ zy;
          extend_sz := extend_sz b * 2 |}
  else Ok b.

(** Lines 104-117: one iteration of the inner loop. *)
Definition example_body (dataset : matrix) (step nin nout total start : Z)
    (b : buffers) (idx : Z) : outcome buffers :=
  x ← input_x dataset idx step nin;
  y ← output_y dataset idx step nin total nout;
  b' ← grow nin nout (start + idx) b;
  X ← setitem (buf_X b') (start + idx) x;
  Y ← setitem (buf_Y b') (start + idx) y;
  Ok {| buf_X := X; buf_Y := Y; extend_sz := extend_sz b' |}.

(** Lines 95-119: the work done for one file; the state carries the buffers
    and [file_example_start_idx]. *)
Definition file_body (step nin nout total : Z)
    (s : buffers * Z) (dataset : matrix) : outcome (buffers * Z) :=
  let '(b, start) := s in
  n ← num_examples (shape1 dataset) total step;
  b' ← for_each (example_body dataset step nin nout total start) (range n) b;
  Ok (b', start + n).

(** [txt_to_dataset(input_window_size, output_window_size, step)].
    [datasets] lists, in listing order, [utils.str_to_np] of the contents of
    each file returned by [utils.get_files_by_ext(self.dir_path, TXT_EXTS)]. *)
Definition txt_to_dataset (self : DatasetConversion) (datasets : list matrix)
    (input_window_size output_window_size : option Z) (step : Z)
  : outcome (tensor * tensor) :=
  let nin := num_input_size input_window_size in
  let nout_opt := num_output_size input_window_size output_window_size in
  total ← add_int nin nout_opt;
  let nout := default 0 nout_opt in
  X ← np_zeros 10000 nin;
  Y ← np_zeros 10000 nout;
  '(b, n) ← for_each (file_body step nin nout total)
              datasets ({| buf_X := X; buf_Y := Y; extend_sz := 10000 |}, 0);
  Ok (py_slice_to n (buf_X b), py_slice_to n (buf_Y b)).

(** ** [dataset_to_str] *)

(** [np.around]: the nearest integer, a tie going to the even neighbour. *)
Definition np_around (q : Q) : Z :=
  let f := Qfloor q in
  match (q - inject_Z f ?= 1 # 2)%Q with
  | Lt => f
  | Gt => f + 1
  | Eq => if Z.even f then f else f + 1
  end.

(** *** Floating-point values

    The argument [Y] of [dataset_to_str] is an array of a floating dtype.
    Lines 136 and 138 combine it with Python [int]s, which NumPy converts
    to the dtype of the array, and every operation rounds its exact result
    to that dtype. *)

(** A value of a NumPy float array: not-a-number, an infinity, or a finite
    value given by the rational it denotes (the two zeros are one value:
    they are equal as numbers and as dictionary keys). *)
Inductive npfloat : Type :=
| NaN
| Inf (negative : bool)
| Fin (q : Q).

(** An IEEE 754 binary format: [prec] significand bits, exponents below
    [emax]. *)
Record float_format : Type := mkFormat { prec : Z; emax : Z }.

Definition binary32 : float_format := {| prec := 24; emax := 128 |}.
Definition binary64 : float_format := {| prec := 53; emax := 1024 |}.

(** The exponent of the least significand bit of the subnormal numbers. *)
Definition emin (fmt : float_format) : Z := 3 - emax fmt - prec fmt.

(** The formats of IEEE 754 have at least two significand bits and
    [prec < emax]. *)
Definition valid_format (fmt : float_format) : Prop :=
  2 <= prec fmt /\ prec fmt < emax fmt.

Definition pow2 (e : Z) : Q := (2 ^ e)%Q.

(** [floor (log2 a)] for a positive rational [a]. *)
Definition log2_floor (a : Q) : Z :=
  let t := Z.log2 (Qnum a) - Z.log2 (Z.pos (Qden a)) in
  if Qle_bool (pow2 t) a then t else t - 1.

(** The exponent of the unit in the last place of a positive rational [a]
    in the format. *)
Definition ulp_exponent (fmt : float_format) (a : Q) : Z :=
  Z.max (log2_floor a - prec fmt + 1) (emin fmt).

(** Round to nearest, ties to even, of a positive rational [a] with no
    bound on the exponent: [a] is scaled to [prec] significand bits (fewer
    in the subnormal range) and the significand rounded to an integer. *)
Definition nearest (fmt : float_format) (a : Q) : Q :=
  inject_Z (np_around (a / pow2 (ulp_exponent fmt a))) * pow2 (ulp_exponent fmt a).

(** The value of the format nearest to a positive rational [a]; a rounded
    value of [2 ^ emax] or more overflows to infinity. *)
Definition round_pos (fmt : float_format) (a : Q) : npfloat :=
  if Qle_bool (pow2 (emax fmt)) (nearest fmt a) then Inf false
  else Fin (Qred (nearest fmt a)).

Definition fneg (x : npfloat) : npfloat :=
  match x with
  | NaN => NaN
  | Inf s => Inf (negb s)
  | Fin q => Fin (- q)
  end.

(** The value of the format nearest to the rational [q]. *)
Definition round (fmt : float_format) (q : Q) : npfloat :=
  match (q ?= 0)%Q with
  | Eq => Fin 0
  | Gt => round_pos fmt q
  | Lt => fneg (round_pos fmt (- q))
  end.

(** A Python [int] converted to the format. *)
Definition of_int (fmt : float_format) (n : Z) : npfloat := round fmt (inject_Z n).

(** [a * b] in the format. *)
Definition fmul (fmt : float_format) (a b : npfloat) : npfloat :=
  match a, b with
  | NaN, _ | _, NaN => NaN
  | Inf s, Inf t => Inf (xorb s t)
  | Inf s, Fin q | Fin q, Inf s =>
      match (q ?= 0)%Q with
      | Eq => NaN
      | Gt => Inf s
      | Lt => Inf (negb s)
      end
  | Fin p, Fin q => round fmt (p * q)
  end.

(** [np.around] on an array entry. *)
Definition np_around_f (x : npfloat) : npfloat :=
  match x with
  | Fin q => Fin (inject_Z (np_around q))
  | _ => x
  end.

(** [a <= b]; false when an operand is NaN. *)
Definition fleb (a b : npfloat) : bool :=
  match a, b with
  | NaN, _ | _, NaN => false
  | Inf true, _ => true
  | _, Inf false => true
  | Fin p, Fin q => Qle_bool p q
  | _, _ => false
  end.

(** [np.maximum] and [np.minimum]: a NaN operand gives NaN. *)
Definition np_maximum (a b : npfloat) : npfloat :=
  match a, b with
  | NaN, _ | _, NaN => NaN
  | _, _ => if fleb a b then b else a
  end.

Definition np_minimum (a b : npfloat) : npfloat :=
  match a, b with
  | NaN, _ | _, NaN => NaN
  | _, _ => if fleb a b then a else b
  end.

(** Lines 136 and 138 on one entry [v] of an array of the format [fmt],
    for a vocabulary of [n] entries:
    [np.minimum(np.maximum(np.around(v * n), 0), n - 1)]. *)
Definition quantize (fmt : float_format) (n : Z) (v : npfloat) : npfloat :=
  np_minimum
    (np_maximum (np_around_f (fmul fmt v (of_int fmt n))) (Fin 0))
    (of_int fmt (n - 1)).

(** The [int] that a float equals, if any.  After line 140 the entries are
    Python [float]s, and a [float] is found in a dictionary with [int] keys
    exactly when it equals one of the keys; NaN, the infinities and the
    values with a fractional part equal none. *)
Definition key_of (x : npfloat) : option Z :=
  match x with
  | Fin q => if Qeq_bool q (inject_Z (Qfloor q)) then Some (Qfloor q) else None
  | _ => None
  end.

(** The [int] key that the quantised entry equals, if any. *)
Definition index (fmt : float_format) (n : Z) (v : npfloat) : option Z :=
  key_of (quantize fmt n v).

(** [d[k]] *)
Definition getitem (d : gmap Z string) (k : Z) : outcome string :=
  match d !! k with
  | Some s => Ok s
  | None => Raise KeyError
  end.

(** The entry of [d] under the key that the float [x] equals, if any. *)
Definition lookup_float (d : gmap Z string) (x : npfloat) : option string :=
  k ← key_of x; d !! k.

(** [d[x]] for a float [x]. *)
Definition getitem_float (d : gmap Z string) (x : npfloat) : outcome string :=
  match key_of x with
  | Some k => getitem d k
  | None => Raise KeyError
  end.

(** [[f(x) for x in l]], evaluated left to right. *)
Fixpoint comprehension {A B : Type} (f : A -> outcome B) (l : list A)
  : outcome (list B) :=
  match l with
  | [] => Ok []
  | x :: l' => y ← f x; ys ← comprehension f l'; Ok (y :: ys)
  end.

(** [len(self.int_to_data)] *)
Definition vocabulary_size (self : DatasetConversion) : Z :=
  Z.of_nat (size (int_to_data self)).

Definition MIDI_EXTS : list string := [".mid"; ".midi"].
Definition TXT_EXTS : list string := [".txt"].

(** ** Method bodies and the instance

    A method body runs on the instance [self].  It can read an attribute,
    assign one, store into one of the two dictionaries, and raise or end
    the process part-way: the instance it leaves behind is part of its
    result in every case. *)
Definition method (A : Type) : Type :=
  DatasetConversion -> outcome A * DatasetConversion.

#[global] Instance method_ret : MRet method := fun A a self => (Ok a, self).

#[global] Instance method_bind : MBind method := fun A B k m self =>
  match m self with
  | (Ok a, self') => k a self'
  | (Raise e, self') => (Raise e, self')
  | (Exit c, self') => (Exit c, self')
  end.

(** [self.f], read. *)
Definition attribute {A : Type} (f : DatasetConversion -> A) : method A :=
  fun self => (Ok (f self), self).

(** Code that works on local values only: it has no reference to [self]
    or to one of its dictionaries. *)
Definition local {A : Type} (o : outcome A) : method A :=
  fun self => (o, self).

(** [self.data_to_int[k] = v] *)
Definition setitem_data_to_int (k : string) (v : Z) : method unit :=
  fun self =>
    (Ok tt, {| data_to_int := <[k := v]> (data_to_int self);
               int_to_data := int_to_data self;
               dir_path := dir_path self;
               sep_by_type := sep_by_type self |}).

(** [self.int_to_data[k] = v] *)
Definition setitem_int_to_data (k : Z) (v : string) : method unit :=
  fun self =>
    (Ok tt, {| data_to_int := data_to_int self;
               int_to_data := <[k := v]> (int_to_data self);
               dir_path := dir_path self;
               sep_by_type := sep_by_type self |}).

(** A loop whose body runs on the instance. *)
Fixpoint for_each_method {S I : Type} (body : S -> I -> method S)
    (it : list I) (s : S) : method S :=
  match it with
  | [] => mret s
  | i :: it' => s' ← body s i; for_each_method body it' s'
  end.

(** A comprehension whose element expression runs on the instance. *)
Fixpoint comprehension_method {A B : Type} (f : A -> method B) (l : list A)
  : method (list B) :=
  match l with
  | [] => mret []
  | x :: l' => y ← f x; ys ← comprehension_method f l'; mret (y :: ys)
  end.

Section Methods.

(** The module [utils] is external.  [sep_char] is the character
    [chr(utils.NOTES_SIZE)]; the four functions stand for the [utils]
    functions of the same names. *)
Variable sep_char : ascii.
Variable get_files_by_ext : string -> list string -> outcome (list string).
Variable midi_to_txt_file : string -> string -> string -> outcome unit.
Variable str_to_np : string -> outcome matrix.
Variable arr_to_midi : matrix -> option string -> outcome string.

(** [os.path.join], and the contents of a file opened for reading. *)
Variable path_join : string -> string -> string.
Variable read_text : string -> outcome string.

Definition SEPARATOR : string := String sep_char EmptyString.

(** [midi_to_txt()] *)
Definition midi_to_txt (self : DatasetConversion) : outcome unit :=
  midifile_list ← get_files_by_ext (dir_path self) MIDI_EXTS;
  for_each (fun _ midifile =>
              midi_to_txt_file midifile (dir_path self) (dir_path self))
           midifile_list tt.

(** [dataset_to_str(Y)] for an array [Y] of the format [fmt], given by its
    entries in flattening (row-major) order. *)
Definition dataset_to_str (fmt : float_format) (self : DatasetConversion)
    (Y : list npfloat) : outcome string :=
  let n := vocabulary_size self in
  let Y := map (quantize fmt n) Y in
  Y_str ← comprehension (getitem_float (int_to_data self)) Y;
  if bool_decide (sep_by_type self = "word") then
    Ok (String.concat SEPARATOR Y_str)
  else if bool_decide (sep_by_type self = "char") then
    Ok (String.concat "" Y_str)
  else Raise UnboundLocalError.

(** [str_to_midi(text_string, filename)] *)
Definition str_to_midi (self : DatasetConversion) (text_string : string)
    (filename : option string) : outcome string :=
  arr ← str_to_np text_string;
  arr_to_midi arr filename.

(** *** The bodies, statement by statement

    The same four methods as they run on the instance, every use of
    [self] written out. *)

(** Lines 54-57. *)
Definition midi_to_txt_method : method unit :=
  d ← attribute dir_path;
  midifile_list ← local (get_files_by_ext d MIDI_EXTS);
  for_each_method
    (fun _ midifile =>
       input_dir ← attribute dir_path;
       output_dir ← attribute dir_path;
       local (midi_to_txt_file midifile input_dir output_dir))
    midifile_list tt.

(** Lines 72-121, with the listing of line 76 and the reading and parsing
    of each file at lines 91-95 in their places. *)
Definition txt_to_dataset_method
    (input_window_size output_window_size : option Z) (step : Z)
  : method (tensor * tensor) :=
  let nin := num_input_size input_window_size in
  let nout_opt := num_output_size input_window_size output_window_size in
  d ← attribute dir_path;
  txtfile_list ← local (get_files_by_ext d TXT_EXTS);
  total ← local (add_int nin nout_opt);
  let nout := default 0 nout_opt in
  X ← local (np_zeros 10000 nin);
  Y ← local (np_zeros 10000 nout);
  '(b, n) ← for_each_method
              (fun s file =>
                 d ← attribute dir_path;
                 data ← local (read_text (path_join d file));
                 dataset ← local (str_to_np data);
                 local (file_body step nin nout total s dataset))
              txtfile_list ({| buf_X := X; buf_Y := Y; extend_sz := 10000 |}, 0);
  mret (py_slice_to n (buf_X b), py_slice_to n (buf_Y b)).

(** Lines 136-148. *)
Definition dataset_to_str_method (fmt : float_format) (Y : list npfloat)
  : method string :=
  d ← attribute int_to_data;
  let Y := map (fun v => np_around_f (fmul fmt v (of_int fmt (Z.of_nat (size d))))) Y in
  d ← attribute int_to_data;
  let Y := map (fun v => np_minimum (np_maximum v (Fin 0))
                           (of_int fmt (Z.of_nat (size d) - 1))) Y in
  Y_str ← comprehension_method
            (fun y => d ← attribute int_to_data; local (getitem_float d y)) Y;
  mode ← attribute sep_by_type;
  if bool_decide (mode = "word") then
    mret (String.concat SEPARATOR Y_str)
  else
    mode ← attribute sep_by_type;
    if bool_decide (mode = "char") then
      mret (String.concat "" Y_str)
    else local (Raise UnboundLocalError).

(** Lines 162-163. *)
Definition str_to_midi_method (text_string : string) (filename : option string)
  : method string :=
  arr ← local (str_to_np text_string);
  local (arr_to_midi arr filename).

(** *** Sessions

    A session is an instance and the method calls made on it.  A call runs
    the method body on the instance; the instance it leaves is the one the
    next call runs on, whether the call returned or raised. *)
Inductive call : Type :=
| Call_midi_to_txt
| Call_txt_to_dataset (input_window_size output_window_size : option Z) (step : Z)
| Call_dataset_to_str (fmt : float_format) (Y : list npfloat)
| Call_str_to_midi (text_string : string) (filename : option string).

Inductive value : Type :=
| VNone
| VDataset (XY : tensor * tensor)
| VStr (s : string).

Definition perform (self : DatasetConversion) (c : call)
  : outcome value * DatasetConversion :=
  match c with
  | Call_midi_to_txt =>
      (_ ← midi_to_txt_method; mret VNone) self
  | Call_txt_to_dataset iw ow step =>
      (XY ← txt_to_dataset_method iw ow step; mret (VDataset XY)) self
  | Call_dataset_to_str fmt Y =>
      (s ← dataset_to_str_method fmt Y; mret (VStr s)) self
  | Call_str_to_midi t f =>
      (s ← str_to_midi_method t f; mret (VStr s)) self
  end.

(** The instances a program can hold: a constructed one, then any number
    of method calls. *)
Inductive reachable : DatasetConversion -> Prop :=
| reachable_init directory_path sep self :
    __init__ directory_path sep = Ok self -> reachable self
| reachable_call self c :
    reachable self -> reachable (snd (perform self c)).

End Methods.

(** A method body that leaves every instance as it found it. *)
Definition readonly {A : Type} (m : method A) : Prop :=
  forall self, snd (m self) = self.

(** ** The vocabulary contract of the specification *)

(** The specification's vocabulary invariant: indices are the contiguous
    integers from 0, and [int_to_data] inverts [data_to_int]. *)
Definition contiguous (self : DatasetConversion) : Prop :=
  forall k : Z, is_Some (int_to_data self !! k) <-> 0 <= k < vocabulary_size self.

Definition aligned (self : DatasetConversion) : Prop :=
  forall (s : string) (i : Z),
    data_to_int self !! s = Some i -> int_to_data self !! i = Some s.

(** Modelled from the spec: the Vocabulary Codec operation [encode(symbol)],
    which the class does not define.  A known symbol keeps its index; a new
    one gets the next unused integer and is recorded in both directions. *)
Definition encode (symbol : string) : method Z :=
  d ← attribute data_to_int;
  match d !! symbol with
  | Some i => mret i
  | None =>
      let i := Z.of_nat (size d) in
      _ ← setitem_data_to_int symbol i;
      _ ← setitem_int_to_data i symbol;
      mret i
  end.

(** [t.split(c)] for a one-character separator. *)
Fixpoint split_on (c : ascii) (t : string) : list string :=
  match t with
  | EmptyString => [EmptyString]
  | String a t' =>
      if Ascii.eqb a c then EmptyString :: split_on c t'
      else match split_on c t' with
           | w :: ws => String a w :: ws
           | [] => [String a EmptyString]
           end
  end.









(** ** Reference descriptions used in the statements *)

(** A timestep matrix of width [T]: 128 rows of [T] entries. *)
Definition timestep_matrix (T : Z) (m : matrix) : Prop :=
  length m = NOTES /\ Forall (fun r => Z.of_nat (length r) = T) m.

(** Entry [(r, c)] of a matrix. *)
Definition entry (m : matrix) (r c : nat) : option Q :=
  row ← m !! r; row !! c.

(** The example count of the specification for a file of width [T]. *)
Definition example_count (T nin nout step : Z) : Z :=
  Z.max 0 ((T - nin - nout) / step).

(** The windows of example [i]: [nin] columns from column [i * step], and
    the [nout] columns after them. *)
Definition window_x (step nin : Z) (dataset : matrix) (i : Z) : matrix :=
  slice_cols (i * step) (i * step + nin) dataset.

Definition window_y (step nin nout : Z) (dataset : matrix) (i : Z) : matrix :=
  slice_cols (i * step + nin) (i * step + nin + nout) dataset.

(** The windows of one file, in the order of the inner loop. *)
Definition windows_x (step nin nout : Z) (dataset : matrix) : tensor :=
  map (window_x step nin dataset)
      (range (example_count (shape1 dataset) nin nout step)).

Definition windows_y (step nin nout : Z) (dataset : matrix) : tensor :=
  map (window_y step nin nout dataset)
      (range (example_count (shape1 dataset) nin nout step)).

(** The loop invariant of [txt_to_dataset]: the buffers hold the examples
    written so far, [done_x] and [done_y], followed by padding of equal
    length, and the next extension is not empty. *)
Definition buffers_hold (b : buffers) (done_x done_y : tensor) : Prop :=
  exists pad_x pad_y : tensor,
    buf_X b = done_x ++ pad_x /\ buf_Y b = done_y ++ pad_y /\
    length pad_x = length pad_y /\ length done_x = length done_y /\
    0 < extend_sz b.

(** A corpus in which every file is a timestep matrix at least as wide as
    one input window followed by one output window. *)
Definition long_enough (nin nout : Z) (datasets : list matrix) : Prop :=
  Forall (fun m => exists T, timestep_matrix T m /\ nin + nout <= T) datasets.

(** [(X.shape[0], Y.shape[0])] of a returned dataset. *)
Definition example_counts (r : outcome (tensor * tensor)) : outcome (Z * Z) :=
  '(X, Y) ← r; Ok (Z.of_nat (length X), Z.of_nat (length Y)).

(** ** Concrete inputs *)

(** A 128-row matrix of width [T] whose entry in column [c] is [c]. *)
Definition ramp (T : nat) : matrix :=
  repeat (map (fun c => inject_Z (Z.of_nat c)) (seq 0 T)) NOTES.

(** The instance built by [DatasetConversion('.', 'word')]. *)
Definition dc_word : DatasetConversion :=
  {| data_to_int := ∅; int_to_data := ∅; dir_path := "."; sep_by_type := "word" |}.

(** An instance with the three-symbol vocabulary a, b, c. *)
Definition dc_abc (mode : string) : DatasetConversion :=
  {| data_to_int := <["a" := 0]> (<["b" := 1]> (<["c" := 2]> ∅));
     int_to_data := <[0 := "a"]> (<[1 := "b"]> (<[2 := "c"]> ∅));
     dir_path := "."; sep_by_type := mode |}.

(** Collaborators of a session over a directory without MIDI files, a
    parser that rejects every text and a writer that returns the name
    [out.mid]. *)
Definition sep128 : ascii := ascii_of_nat 128.
Definition no_files (_ : string) (_ : list string) : outcome (list string) := Ok [].
Definition no_export (_ _ _ : string) : outcome unit := Ok tt.
Definition no_parse (_ : string) : outcome matrix := Raise ValueError.
Definition no_write (_ : matrix) (_ : option string) : outcome string := Ok "out.mid".


(** ** Further reference descriptions *)

(** The sum over the files of [num_examples] as line 97 computes it,
    negative values included. *)
Definition signed_total (total step : Z) (datasets : list matrix) : Z :=
  foldr (fun m acc => (shape1 m - total) / step + acc) 0 datasets.

(** The running index [file_example_start_idx], starting from [s], is
    negative after none of the files. *)
Fixpoint never_negative (total step s : Z) (datasets : list matrix) : Prop :=
  match datasets with
  | [] => True
  | m :: rest =>
      0 <= s + (shape1 m - total) / step /\
      never_negative total step (s + (shape1 m - total) / step) rest
  end.

(** The sum over the files of the specification's example count. *)
Definition total_examples (nin nout step : Z) (datasets : list matrix) : Z :=
  foldr (fun m acc => example_count (shape1 m) nin nout step + acc) 0 datasets.

(** The arrays of a returned dataset. *)
Definition dataset_X (r : outcome (tensor * tensor)) : tensor :=
  match r with Ok (X, _) => X | _ => [] end.
Definition dataset_Y (r : outcome (tensor * tensor)) : tensor :=
  match r with Ok (_, Y) => Y | _ => [] end.

(** A matrix of [r] rows of [T] entries each. *)
Definition rectangular (r : nat) (T : Z) (m : matrix) : Prop :=
  length m = r /\ Forall (fun row => Z.of_nat (length row) = T) m.

(** Every array of [X] has the shape [(128, n)]. *)
Definition all_shaped (n : Z) (X : tensor) : Prop :=
  Forall (timestep_matrix n) X.

(** The character [c] occurs in [t]. *)
Fixpoint occurs (c : ascii) (t : string) : Prop :=
  match t with
  | EmptyString => False
  | String a t' => a = c \/ occurs c t'
  end.

(** [ramp] for a width given as an integer. *)
Definition ramp_Z (T : Z) : matrix := ramp (Z.to_nat T).

(** A 2-row matrix of width [T]. *)
Definition two_rows (T : nat) : matrix :=
  repeat (map (fun c => inject_Z (Z.of_nat c)) (seq 0 T)) 2.

(** A listing and a converter that fails on the file [bad.mid]. *)
Definition three_midis (_ : string) (_ : list string) : outcome (list string) :=
  Ok ["a.mid"; "bad.mid"; "c.mid"].
Definition fails_on_bad (f _ _ : string) : outcome unit :=
  if bool_decide (f = "bad.mid") then Raise ValueError else Ok tt.

(** ** Further concrete inputs *)

(** The path of a file in a directory, and a file system without readable
    files. *)
Definition join_slash (d f : string) : string := (d +:+ "/" +:+ f)%string.
Definition no_text (_ : string) : outcome string := Raise ValueError.

(** A directory with the text files a.txt and b.txt, a file system in
    which the contents of a file are its path, and a parser that knows the
    two files: a.txt holds a matrix of width 30 and b.txt one of width 10. *)
Definition two_texts (_ : string) (exts : list string) : outcome (list string) :=
  if bool_decide (exts = TXT_EXTS) then Ok ["a.txt"; "b.txt"] else Ok [].
Definition path_as_text (p : string) : outcome string := Ok p.
Definition parse_ramps (data : string) : outcome matrix :=
  if bool_decide (data = "./a.txt") then Ok (ramp 30)
  else if bool_decide (data = "./b.txt") then Ok (ramp 10)
  else Raise ValueError.



(** A binary64 value whose exact product with 3 is above 1/2 and whose
    binary64 product with 3 is 1/2. *)
Definition below_half : Q := 3002399751580331 # (2 ^ 54).

(** * Properties *)

(** ** Iterators and slices *)

Lemma length_range n : length (range n) = Z.to_nat n.
Proof. unfold range. by rewrite length_map, length_seq. Qed.

Lemma range_lookup n (i : nat) :
  (i < Z.to_nat n)%nat -> range n !! i = Some (Z.of_nat i).
Proof.
  intros Hi. unfold range.
  rewrite list_lookup_fmap, lookup_seq_lt by done. reflexivity.
Qed.

Lemma elem_of_range n i : i ∈ range n <-> 0 <= i < n.
Proof.
  unfold range. rewrite list_elem_of_fmap. split.
  - intros (k & -> & Hk). apply elem_of_seq in Hk. lia.
  - intros Hi. exists (Z.to_nat i). split; [lia|]. apply elem_of_seq. lia.
Qed.

Lemma py_slice_inside {A} (a b : Z) (l : list A) :
  0 <= a <= b -> b <= Z.of_nat (length l) ->
  py_slice a b l = take (Z.to_nat (b - a)) (drop (Z.to_nat a) l).
Proof.
  intros Hab Hb. unfold py_slice, slice_bound.
  destruct (Z.ltb_spec a 0), (Z.ltb_spec b 0); try lia.
  by rewrite !Z.min_l by lia.
Qed.

Lemma length_py_slice_inside {A} (a b : Z) (l : list A) :
  0 <= a <= b -> b <= Z.of_nat (length l) ->
  Z.of_nat (length (py_slice a b l)) = b - a.
Proof.
  intros Hab Hb. rewrite py_slice_inside by done.
  rewrite length_take, length_drop. lia.
Qed.

Lemma py_slice_lookup {A} (a b : Z) (l : list A) (j : nat) :
  0 <= a <= b -> b <= Z.of_nat (length l) -> Z.of_nat j < b - a ->
  py_slice a b l !! j = l !! (Z.to_nat a + j)%nat.
Proof.
  intros Hab Hb Hj. rewrite py_slice_inside by done.
  rewrite lookup_take_lt by lia. apply lookup_drop.
Qed.

Lemma py_slice_to_app_length {A} (l k : list A) :
  py_slice_to (Z.of_nat (length l)) (l ++ k) = l.
Proof.
  unfold py_slice_to. rewrite py_slice_inside.
  - rewrite Z.sub_0_r, Nat2Z.id. simpl. apply take_app_length.
  - lia.
  - rewrite length_app. lia.
Qed.

(** ** Column windows of a timestep matrix *)

Lemma shape1_timestep_matrix T m : timestep_matrix T m -> shape1 m = T.
Proof.
  intros [Hlen Hrows]. destruct m as [|r m]; [discriminate|].
  simpl. by inversion Hrows.
Qed.

Lemma length_slice_cols a b m : length (slice_cols a b m) = length m.
Proof. apply length_map. Qed.

Lemma slice_cols_rows T a b m :
  timestep_matrix T m -> 0 <= a <= b -> b <= T ->
  Forall (fun r => Z.of_nat (length r) = b - a) (slice_cols a b m).
Proof.
  intros [_ Hrows] Hab Hb. unfold slice_cols. apply Forall_fmap.
  eapply Forall_impl; [exact Hrows|]. intros r Hr. cbv beta in *.
  apply length_py_slice_inside; lia.
Qed.

Lemma slice_cols_entry T a b m (r j : nat) :
  timestep_matrix T m -> 0 <= a <= b -> b <= T -> Z.of_nat j < b - a ->
  entry (slice_cols a b m) r j = entry m r (Z.to_nat a + j).
Proof.
  intros [_ Hrows] Hab Hb Hj. unfold entry, slice_cols.
  rewrite list_lookup_fmap. destruct (m !! r) as [row|] eqn:Hrow; [|done].
  simpl. apply py_slice_lookup; try lia.
  rewrite Forall_lookup in Hrows. specialize (Hrows _ _ Hrow). simpl in Hrows. lia.
Qed.

Lemma reshape_1_ok n m :
  Forall (fun r => Z.of_nat (length r) = n) m -> reshape_1 n m = Ok m.
Proof.
  intros H. unfold reshape_1.
  replace (forallb _ m) with true; [done|]. symmetry.
  apply forallb_forall. intros r Hr. apply Z.eqb_eq.
  rewrite Forall_forall in H. apply H. by apply list_elem_of_In.
Qed.

(** The last column touched by example [i] lies inside the matrix. *)
Lemma window_inside T total step i :
  1 <= step -> 0 <= i < (T - total) / step -> 0 <= i * step /\ i * step + total <= T - step.
Proof.
  intros Hstep Hi.
  assert (step * ((T - total) / step) <= T - total) by (apply Z.mul_div_le; lia).
  nia.
Qed.

Lemma input_x_ok T m i step nin nout :
  timestep_matrix T m -> 0 <= nin -> 0 <= nout -> 1 <= step ->
  0 <= i < (T - (nin + nout)) / step ->
  input_x m i step nin = Ok (slice_cols (i * step) (i * step + nin) m).
Proof.
  intros Hm Hin Hout Hstep Hi. unfold input_x.
  destruct (window_inside _ _ _ _ Hstep Hi).
  apply reshape_1_ok.
  eapply Forall_impl; [eapply slice_cols_rows; [done|lia|lia]|].
  intros r Hr. cbv beta in *. lia.
Qed.

Lemma output_y_ok T m i step nin nout :
  timestep_matrix T m -> 0 <= nin -> 0 <= nout -> 1 <= step ->
  0 <= i < (T - (nin + nout)) / step ->
  output_y m i step nin (nin + nout) nout
  = Ok (slice_cols (i * step + nin) (i * step + nin + nout) m).
Proof.
  intros Hm Hin Hout Hstep Hi. unfold output_y.
  destruct (window_inside _ _ _ _ Hstep Hi).
  rewrite Z.add_assoc. apply reshape_1_ok.
  eapply Forall_impl; [eapply slice_cols_rows; [done|lia|lia]|].
  intros r Hr. cbv beta in *. lia.
Qed.

(** ** The doubling buffers *)

Lemma np_zeros_ok k n :
  0 <= k -> 0 <= n -> np_zeros k n = Ok (repeat (np_zeros_row n) (Z.to_nat k)).
Proof.
  intros Hk Hn. unfold np_zeros.
  destruct (Z.ltb_spec k 0), (Z.ltb_spec n 0); try lia. reflexivity.
Qed.

Lemma broadcast_rows_full v : length v = NOTES -> broadcast_rows v = Ok v.
Proof. intros Hv. unfold broadcast_rows. by rewrite Hv. Qed.

Lemma setitem_first_pad (done : tensor) p pad v :
  length v = NOTES ->
  setitem (done ++ p :: pad) (Z.of_nat (length done)) v = Ok ((done ++ [v]) ++ pad).
Proof.
  intros Hv. unfold setitem, py_index.
  rewrite length_app. simpl length.
  destruct (Z.ltb_spec (Z.of_nat (length done)) 0); [lia|].
  destruct (Z.leb_spec 0 (Z.of_nat (length done))); [|lia].
  destruct (Z.ltb_spec (Z.of_nat (length done))
              (Z.of_nat (length done + S (length pad)))); [|lia].
  simpl. rewrite broadcast_rows_full by done. simpl.
  rewrite Nat2Z.id.
  replace (length done) with (length done + 0)%nat at 1 by lia.
  rewrite insert_app_r. simpl. by rewrite <- app_assoc.
Qed.

Lemma grow_keeps nin nout b (done_x done_y : tensor) :
  0 <= nin -> 0 <= nout -> buffers_hold b done_x done_y ->
  exists b' p pad_x q pad_y,
    grow nin nout (Z.of_nat (length done_x)) b = Ok b' /\
    buf_X b' = done_x ++ p :: pad_x /\ buf_Y b' = done_y ++ q :: pad_y /\
    length pad_x = length pad_y /\ 0 < extend_sz b'.
Proof.
  intros Hin Hout (px & py & HX & HY & Hpad & Hdone & Hext).
  unfold grow. rewrite HX, length_app.
  destruct (Z.geb_spec (Z.of_nat (length done_x))
              (Z.of_nat (length done_x + length px))) as [Hfull|Hroom].
  - assert (px = []) as -> by (apply nil_length_inv; lia).
    assert (py = []) as -> by (apply nil_length_inv; simpl in Hpad; lia).
    rewrite !np_zeros_ok by lia. simpl.
    destruct (Z.to_nat (extend_sz b)) as [|k] eqn:Hk; [lia|]. simpl.
    eexists _, _, _, _, _. split; [reflexivity|]. simpl.
    rewrite HY, !app_nil_r, !repeat_length. repeat split; lia.
  - destruct px as [|p px]; [simpl in Hroom; lia|].
    destruct py as [|q py]; [discriminate|].
    exists b, p, px, q, py. simpl in Hpad. repeat split; auto with lia.
Qed.

Section OneFile.

Variables (T step nin nout start : Z) (dataset : matrix).
Hypothesis Hm : timestep_matrix T dataset.
Hypothesis Hin : 0 <= nin.
Hypothesis Hout : 0 <= nout.
Hypothesis Hstep : 1 <= step.

Lemma example_body_appends b (done_x done_y : tensor) i :
  buffers_hold b done_x done_y ->
  Z.of_nat (length done_x) = start + i ->
  0 <= i < (T - (nin + nout)) / step ->
  exists b',
    example_body dataset step nin nout (nin + nout) start b i = Ok b' /\
    buffers_hold b' (done_x ++ [window_x step nin dataset i])
                    (done_y ++ [window_y step nin nout dataset i]).
Proof.
  intros Hb Hpos Hi. unfold example_body.
  erewrite input_x_ok, output_y_ok by eassumption. simpl.
  assert (Hdone : length done_x = length done_y) by (destruct Hb as (?&?&?&?&?&?&?); done).
  destruct (grow_keeps nin nout b done_x done_y Hin Hout Hb)
    as (b' & p & px & q & py & Hg & HX & HY & Hpad & Hext).
  rewrite <- Hpos, Hg. simpl. rewrite HX, HY.
  rewrite setitem_first_pad
    by (rewrite length_slice_cols; apply Hm).
  simpl. rewrite Hdone.
  rewrite setitem_first_pad
    by (rewrite length_slice_cols; apply Hm).
  simpl. eexists. split; [reflexivity|].
  exists px, py. simpl. rewrite !length_app. simpl. repeat split; auto with lia.
Qed.

Lemma inner_loop_appends (k : nat) :
  forall (i0 : nat) b (done_x done_y : tensor),
    buffers_hold b done_x done_y ->
    Z.of_nat (length done_x) = start + Z.of_nat i0 ->
    Z.of_nat (i0 + k) <= (T - (nin + nout)) / step ->
    exists b',
      for_each (example_body dataset step nin nout (nin + nout) start)
               (map Z.of_nat (seq i0 k)) b = Ok b' /\
      buffers_hold b' (done_x ++ map (window_x step nin dataset) (map Z.of_nat (seq i0 k)))
                      (done_y ++ map (window_y step nin nout dataset) (map Z.of_nat (seq i0 k))).
Proof.
  induction k as [|k IH]; intros i0 b done_x done_y Hb Hpos Hk.
  - exists b. simpl. by rewrite !app_nil_r.
  - simpl.
    destruct (example_body_appends b done_x done_y (Z.of_nat i0) Hb Hpos)
      as (b1 & -> & Hb1); [lia|]. simpl.
    destruct (IH (S i0) b1 _ _ Hb1) as (b' & -> & Hb').
    + rewrite length_app. simpl. lia.
    + lia.
    + exists b'. split; [done|]. by rewrite <- !app_assoc in Hb'.
Qed.

Lemma file_body_appends b (done_x done_y : tensor) :
  nin + nout <= T ->
  buffers_hold b done_x done_y ->
  Z.of_nat (length done_x) = start ->
  exists b',
    file_body step nin nout (nin + nout) (b, start) dataset
    = Ok (b', Z.of_nat (length (done_x ++ windows_x step nin nout dataset))) /\
    buffers_hold b' (done_x ++ windows_x step nin nout dataset)
                    (done_y ++ windows_y step nin nout dataset).
Proof.
  intros HT Hb Hpos. unfold file_body, num_examples, floordiv.
  rewrite (shape1_timestep_matrix T) by done.
  destruct (Z.eqb_spec step 0); [lia|]. simpl.
  assert (Hn : 0 <= (T - (nin + nout)) / step) by (apply Z.div_pos; lia).
  destruct (inner_loop_appends (Z.to_nat ((T - (nin + nout)) / step))
              0%nat b done_x done_y Hb) as (b' & Hloop & Hb'); [lia|lia|].
  unfold range. rewrite Hloop. simpl.
  unfold windows_x, windows_y, example_count, range.
  rewrite (shape1_timestep_matrix T) by done.
  replace (T - nin - nout) with (T - (nin + nout)) by lia.
  rewrite Z.max_r by done.
  exists b'. split; [|done]. do 2 f_equal.
  rewrite length_app, !length_map, length_seq. lia.
Qed.

End OneFile.

(** ** The whole corpus *)

Lemma file_loop_appends step nin nout (datasets : list matrix) :
  0 <= nin -> 0 <= nout -> 1 <= step ->
  long_enough nin nout datasets ->
  forall b (done_x done_y : tensor),
    buffers_hold b done_x done_y ->
    exists b',
      for_each (file_body step nin nout (nin + nout)) datasets
               (b, Z.of_nat (length done_x))
      = Ok (b', Z.of_nat (length (done_x ++ flat_map (windows_x step nin nout) datasets))) /\
      buffers_hold b' (done_x ++ flat_map (windows_x step nin nout) datasets)
                      (done_y ++ flat_map (windows_y step nin nout) datasets).
Proof.
  intros Hin Hout Hstep Hall.
  induction Hall as [|m datasets (T & Hm & HT) _ IH]; intros b done_x done_y Hb.
  - exists b. simpl. by rewrite !app_nil_r.
  - cbn [for_each flat_map].
    destruct (file_body_appends T step nin nout _ m Hm Hin Hout Hstep
                b done_x done_y HT Hb eq_refl) as (b1 & -> & Hb1).
    cbn [mbind outcome_bind].
    destruct (IH b1 _ _ Hb1) as (b' & -> & Hb').
    exists b'. by rewrite <- !app_assoc in *.
Qed.

Lemma txt_to_dataset_exact self (datasets : list matrix) nin nout step :
  0 <= nin -> 0 <= nout -> 1 <= step ->
  long_enough nin nout datasets ->
  txt_to_dataset self datasets (Some nin) (Some nout) step
  = Ok (flat_map (windows_x step nin nout) datasets,
        flat_map (windows_y step nin nout) datasets).
Proof.
  intros Hin Hout Hstep Hall. unfold txt_to_dataset.
  cbn [num_input_size num_output_size add_int mbind outcome_bind from_option id].
  rewrite !np_zeros_ok by lia. cbn [mbind outcome_bind].
  destruct (file_loop_appends step nin nout datasets Hin Hout Hstep Hall
              (mkBuf (repeat (np_zeros_row nin) (Z.to_nat 10000))
                     (repeat (np_zeros_row nout) (Z.to_nat 10000)) 10000)
              [] [])
    as (b' & Hloop & (px & py & HX & HY & _ & Hlen & _)).
  { eexists _, _. cbn [buf_X buf_Y extend_sz app].
    split; [reflexivity|]. split; [reflexivity|].
    rewrite !repeat_length. repeat split. }
  cbn [length app] in Hloop, HX, HY, Hlen.
  change (Z.of_nat 0) with 0 in Hloop. rewrite Hloop.
  cbn [mbind outcome_bind]. rewrite HX, HY, py_slice_to_app_length.
  rewrite Hlen. by rewrite py_slice_to_app_length.
Qed.

(** ** Powers of two *)

Lemma two_neq_0 : ~ (2 == 0)%Q.
Proof. discriminate. Qed.

Lemma pow2_pos e : (0 < pow2 e)%Q.
Proof. apply Qpower_0_lt. reflexivity. Qed.

Lemma pow2_add a b : (pow2 (a + b) == pow2 a * pow2 b)%Q.
Proof. apply Qpower_plus, two_neq_0. Qed.

Lemma pow2_sub a b : (pow2 (a - b) == pow2 a / pow2 b)%Q.
Proof. apply Qpower_minus, two_neq_0. Qed.

Lemma pow2_le a b : a <= b -> (pow2 a <= pow2 b)%Q.
Proof. intros H. apply Qpower_le_compat_l; [done|]. discriminate. Qed.

Lemma pow2_lt a b : a < b -> (pow2 a < pow2 b)%Q.
Proof. intros H. apply Qpower_lt_compat_l; [done|]. reflexivity. Qed.

Lemma pow2_lt_inv a b : (pow2 a < pow2 b)%Q -> a < b.
Proof. intros H. eapply Qpower_lt_compat_l_inv; [exact H|reflexivity]. Qed.

Lemma pow2_Z e : 0 <= e -> (pow2 e == inject_Z (2 ^ e))%Q.
Proof. intros H. unfold pow2. by rewrite Zpower_Qpower. Qed.

Lemma pow2_0 : (pow2 0 == 1)%Q.
Proof. reflexivity. Qed.


(** ** The binary logarithm *)

Lemma Qnum_pos a : (0 < a)%Q -> 0 < Qnum a.
Proof. destruct a as [n d]. unfold Qlt. simpl. lia. Qed.

Lemma Q_as_fraction a : (a == inject_Z (Qnum a) / inject_Z (Z.pos (Qden a)))%Q.
Proof. destruct a as [n d]. simpl. rewrite <- Qmake_Qdiv. reflexivity. Qed.

Lemma log2_floor_rough a :
  (0 < a)%Q ->
  (pow2 (Z.log2 (Qnum a) - Z.log2 (Z.pos (Qden a)) - 1) < a)%Q /\
  (a < pow2 (Z.log2 (Qnum a) - Z.log2 (Z.pos (Qden a)) + 1))%Q.
Proof.
  intros Ha. pose proof (Qnum_pos a Ha) as HN.
  set (N := Qnum a) in *. set (D := Z.pos (Qden a)).
  assert (HD : 0 < D) by (unfold D; lia).
  destruct (Z.log2_spec N HN) as [HN1 HN2].
  destruct (Z.log2_spec D HD) as [HD1 HD2].
  pose proof (Z.log2_nonneg N) as HLN. pose proof (Z.log2_nonneg D) as HLD.
  assert (Ea : (a == inject_Z N / inject_Z D)%Q) by apply Q_as_fraction.
  assert (HDq : (0 < inject_Z D)%Q) by (change 0%Q with (inject_Z 0); by rewrite <- Zlt_Qlt).
  rewrite Zle_Qle, <- pow2_Z in HN1, HD1 by done.
  rewrite Zlt_Qlt in HN2, HD2.
  rewrite <- !Z.add_1_r in HN2, HD2.
  rewrite <- pow2_Z in HN2, HD2 by lia.
  pose proof (pow2_pos (Z.log2 N)). pose proof (pow2_pos (Z.log2 D)).
  pose proof (pow2_pos (Z.log2 N + 1)). pose proof (pow2_pos (Z.log2 D + 1)).
  split.
  - replace (Z.log2 N - Z.log2 D - 1) with (Z.log2 N - (Z.log2 D + 1)) by lia.
    rewrite pow2_sub, Ea.
    apply Qlt_shift_div_l; [done|].
    set (r := (pow2 (Z.log2 N) / pow2 (Z.log2 D + 1))%Q).
    assert (Hr : (r * pow2 (Z.log2 D + 1) == pow2 (Z.log2 N))%Q)
      by (unfold r; field; apply Qpower_not_0, two_neq_0).
    assert (0 < r)%Q by (apply Qlt_shift_div_l; [done|lra]).
    assert (0 < r * (pow2 (Z.log2 D + 1) - inject_Z D))%Q
      by (apply Qmult_lt_0_compat; lra).
    lra.
  - replace (Z.log2 N - Z.log2 D + 1) with (Z.log2 N + 1 - Z.log2 D) by lia.
    rewrite pow2_sub, Ea.
    apply Qlt_shift_div_r; [done|].
    set (r := (pow2 (Z.log2 N + 1) / pow2 (Z.log2 D))%Q).
    assert (Hr : (r * pow2 (Z.log2 D) == pow2 (Z.log2 N + 1))%Q)
      by (unfold r; field; apply Qpower_not_0, two_neq_0).
    assert (0 < r)%Q by (apply Qlt_shift_div_l; [done|lra]).
    assert (0 <= r * (inject_Z D - pow2 (Z.log2 D)))%Q
      by (apply Qmult_le_0_compat; lra).
    lra.
Qed.

Lemma log2_floor_spec a :
  (0 < a)%Q -> (pow2 (log2_floor a) <= a)%Q /\ (a < pow2 (log2_floor a + 1))%Q.
Proof.
  intros Ha. destruct (log2_floor_rough a Ha) as [H1 H2]. unfold log2_floor.
  set (t := Z.log2 (Qnum a) - Z.log2 (Z.pos (Qden a))) in *.
  destruct (Qle_bool (pow2 t) a) eqn:Hle.
  - apply Qle_bool_iff in Hle. done.
  - assert (a < pow2 t)%Q.
    { apply Qnot_le_lt. intros H. apply Qle_bool_iff in H. congruence. }
    replace (t - 1 + 1) with t by lia. split; [by apply Qlt_le_weak|done].
Qed.

Lemma log2_floor_unique a t :
  (pow2 t <= a)%Q -> (a < pow2 (t + 1))%Q -> log2_floor a = t.
Proof.
  intros H1 H2.
  assert (Ha : (0 < a)%Q) by (pose proof (pow2_pos t); lra).
  destruct (log2_floor_spec a Ha) as [H3 H4].
  assert (log2_floor a < t + 1) by (apply pow2_lt_inv; lra).
  assert (t < log2_floor a + 1) by (apply pow2_lt_inv; lra).
  lia.
Qed.

Lemma log2_floor_mono a b :
  (0 < a)%Q -> (a <= b)%Q -> log2_floor a <= log2_floor b.
Proof.
  intros Ha Hab. assert (Hb : (0 < b)%Q) by lra.
  destruct (log2_floor_spec a Ha) as [H1 _].
  destruct (log2_floor_spec b Hb) as [_ H2].
  assert (log2_floor a < log2_floor b + 1) by (apply pow2_lt_inv; lra).
  lia.
Qed.

Lemma log2_floor_comp a b : (0 < a)%Q -> (a == b)%Q -> log2_floor a = log2_floor b.
Proof.
  intros Ha Hab. assert (Hb : (0 < b)%Q) by lra.
  destruct (log2_floor_spec b Hb) as [H1 H2].
  apply log2_floor_unique; lra.
Qed.

(** ** Rounding to an integer *)

Lemma np_around_cases q :
  (np_around q = Qfloor q /\ (q - inject_Z (Qfloor q) <= 1 # 2)%Q) \/
  (np_around q = Qfloor q + 1 /\ (1 # 2 <= q - inject_Z (Qfloor q))%Q).
Proof.
  unfold np_around.
  destruct (q - inject_Z (Qfloor q) ?= 1 # 2)%Q eqn:Hc.
  - apply Qeq_alt in Hc. destruct (Z.even (Qfloor q)); [left|right]; split; auto; lra.
  - apply Qlt_alt in Hc. left. split; auto; lra.
  - apply Qgt_alt in Hc. right. split; auto; lra.
Qed.

Lemma np_around_nearest q : (Qabs (q - inject_Z (np_around q)) <= 1 # 2)%Q.
Proof.
  pose proof (Qfloor_le q) as Hlo. pose proof (Qlt_floor q) as Hhi.
  rewrite inject_Z_plus in Hhi. change (inject_Z 1) with 1%Q in Hhi.
  apply Qabs_Qle_condition.
  destruct (np_around_cases q) as [[-> H]|[-> H]].
  - split; lra.
  - rewrite inject_Z_plus. change (inject_Z 1) with 1%Q. split; lra.
Qed.

Lemma np_around_ge_floor q : Qfloor q <= np_around q.
Proof. destruct (np_around_cases q) as [[-> _]|[-> _]]; lia. Qed.

Lemma np_around_ge (k : Z) q : (inject_Z k <= q)%Q -> k <= np_around q.
Proof.
  intros H. apply Qfloor_resp_le in H. rewrite Qfloor_Z in H.
  pose proof (np_around_ge_floor q). lia.
Qed.

Lemma np_around_le (k : Z) q : (q <= inject_Z k)%Q -> np_around q <= k.
Proof.
  intros H. pose proof (Qfloor_le q) as Hlo.
  destruct (np_around_cases q) as [[-> Hd]|[-> Hd]].
  - rewrite Zle_Qle. lra.
  - assert (inject_Z (Qfloor q) < inject_Z k)%Q as Hlt by lra.
    rewrite <- Zlt_Qlt in Hlt. lia.
Qed.

Lemma np_around_unique (k : Z) q :
  (Qabs (q - inject_Z k) < 1 # 2)%Q -> np_around q = k.
Proof.
  intros H. apply Qabs_Qlt_condition in H. destruct H as [H1 H2].
  pose proof (np_around_nearest q) as Hn.
  apply Qabs_Qle_condition in Hn. destruct Hn as [H3 H4].
  assert (inject_Z (np_around q) < inject_Z (k + 1))%Q as Hu
    by (rewrite inject_Z_plus; change (inject_Z 1) with 1%Q; lra).
  assert (inject_Z k < inject_Z (np_around q + 1))%Q as Hl
    by (rewrite inject_Z_plus; change (inject_Z 1) with 1%Q; lra).
  rewrite <- Zlt_Qlt in Hu, Hl. lia.
Qed.

Lemma np_around_inject_Z k : np_around (inject_Z k) = k.
Proof.
  apply np_around_unique. apply Qabs_Qlt_condition. split; lra.
Qed.

Lemma np_around_mono q1 q2 : (q1 <= q2)%Q -> np_around q1 <= np_around q2.
Proof.
  intros Hq. pose proof (Qfloor_resp_le _ _ Hq) as Hf.
  destruct (Z.eq_dec (Qfloor q1) (Qfloor q2)) as [Heq|Hne].
  - unfold np_around. rewrite <- Heq.
    destruct (q1 - inject_Z (Qfloor q1) ?= 1 # 2)%Q eqn:H1;
      destruct (q2 - inject_Z (Qfloor q1) ?= 1 # 2)%Q eqn:H2;
      try (destruct (Z.even (Qfloor q1))); try lia;
      repeat match goal with
             | H : (_ ?= _)%Q = Eq |- _ => apply Qeq_alt in H
             | H : (_ ?= _)%Q = Lt |- _ => apply Qlt_alt in H
             | H : (_ ?= _)%Q = Gt |- _ => apply Qgt_alt in H
             end; lra.
  - destruct (np_around_cases q1) as [[-> _]|[-> _]];
      pose proof (np_around_ge_floor q2); lia.
Qed.


Lemma np_around_comp q1 q2 : (q1 == q2)%Q -> np_around q1 = np_around q2.
Proof.
  intros H. apply Z.le_antisymm; apply np_around_mono; lra.
Qed.

Lemma np_around_nonneg q : (0 <= q)%Q -> 0 <= np_around q.
Proof. intros H. by apply (np_around_ge 0). Qed.

(** A tie goes to the even neighbour. *)
Lemma np_around_tie_even q :
  (Qabs (q - inject_Z (np_around q)) == 1 # 2)%Q -> Z.even (np_around q) = true.
Proof.
  intros Ht. pose proof (Qfloor_le q) as Hlo. pose proof (Qlt_floor q) as Hhi.
  rewrite inject_Z_plus in Hhi. change (inject_Z 1) with 1%Q in Hhi.
  unfold np_around in *.
  destruct (q - inject_Z (Qfloor q) ?= 1 # 2)%Q eqn:Hc.
  - destruct (Z.even (Qfloor q)) eqn:He; [done|].
    rewrite Z.even_add, He. reflexivity.
  - apply Qlt_alt in Hc. rewrite Qabs_pos in Ht by lra. lra.
  - apply Qgt_alt in Hc. rewrite inject_Z_plus in Ht.
    change (inject_Z 1) with 1%Q in Ht.
    rewrite Qabs_neg in Ht by lra. lra.
Qed.

(** ** Rounding to a format *)

Lemma Qdiv_mult_cancel x c : ~ (c == 0)%Q -> (x / c * c == x)%Q.
Proof. intros Hc. field. exact Hc. Qed.

Lemma Qdiv_le_mono x y c : (0 < c)%Q -> (x <= y)%Q -> (x / c <= y / c)%Q.
Proof.
  intros Hc Hxy. apply Qle_shift_div_l; [done|].
  rewrite Qdiv_mult_cancel by lra. done.
Qed.


Lemma pow2_div a b : (pow2 a / pow2 b == pow2 (a - b))%Q.
Proof. by rewrite pow2_sub. Qed.

Lemma ulp_exponent_mono fmt a b :
  (0 < a)%Q -> (a <= b)%Q -> ulp_exponent fmt a <= ulp_exponent fmt b.
Proof.
  intros Ha Hab. unfold ulp_exponent.
  pose proof (log2_floor_mono a b Ha Hab). lia.
Qed.

Lemma nearest_nonneg fmt a : (0 < a)%Q -> (0 <= nearest fmt a)%Q.
Proof.
  intros Ha. unfold nearest. pose proof (pow2_pos (ulp_exponent fmt a)) as Hp.
  assert (0 <= np_around (a / pow2 (ulp_exponent fmt a))).
  { apply np_around_nonneg. apply Qle_shift_div_l; [done|]. lra. }
  apply Qmult_le_0_compat; [|lra].
  change 0%Q with (inject_Z 0). by rewrite <- Zle_Qle.
Qed.

Lemma nearest_comp fmt a b : (0 < a)%Q -> (a == b)%Q -> (nearest fmt a == nearest fmt b)%Q.
Proof.
  intros Ha Hab. unfold nearest, ulp_exponent.
  rewrite (log2_floor_comp a b Ha Hab).
  set (e := Z.max _ _).
  rewrite (np_around_comp (a / pow2 e) (b / pow2 e)); [reflexivity|].
  by rewrite Hab.
Qed.

Lemma nearest_mono fmt a b :
  1 <= prec fmt -> (0 < a)%Q -> (a <= b)%Q -> (nearest fmt a <= nearest fmt b)%Q.
Proof.
  intros Hprec Ha Hab. assert (Hb : (0 < b)%Q) by lra.
  pose proof (ulp_exponent_mono fmt a b Ha Hab) as He.
  pose proof (log2_floor_mono a b Ha Hab) as Hl.
  destruct (log2_floor_spec a Ha) as [Ha1 Ha2].
  destruct (log2_floor_spec b Hb) as [Hb1 Hb2].
  unfold nearest. set (ea := ulp_exponent fmt a) in *.
  set (eb := ulp_exponent fmt b) in *.
  pose proof (pow2_pos ea) as Hpa. pose proof (pow2_pos eb) as Hpb.
  destruct (Z.eq_dec ea eb) as [Heq|Hne].
  - rewrite <- Heq.
    assert (np_around (a / pow2 ea) <= np_around (b / pow2 ea))
      by (apply np_around_mono, Qdiv_le_mono; done).
    apply Qmult_le_compat_r; [|lra]. by rewrite <- Zle_Qle.
  - assert (Heb : eb = log2_floor b - prec fmt + 1) by (unfold ea, eb, ulp_exponent in *; lia).
    assert (Hea : log2_floor a - prec fmt + 1 <= ea) by (unfold ea, ulp_exponent; lia).
    set (lb := log2_floor b) in *.
    assert (HaB : (a <= pow2 lb)%Q).
    { assert (pow2 (log2_floor a + 1) <= pow2 lb)%Q by (apply pow2_le; lia). lra. }
    (* the significand of [b] is at least [2 ^ (prec - 1)] *)
    assert (Hmb : 2 ^ (prec fmt - 1) <= np_around (b / pow2 eb)).
    { apply np_around_ge. rewrite <- pow2_Z by lia.
      replace (prec fmt - 1) with (lb - eb) by lia.
      rewrite <- pow2_div. by apply Qdiv_le_mono. }
    (* the significand of [a] is at most [2 ^ (lb - ea)] *)
    assert (Hma : np_around (a / pow2 ea) <= 2 ^ (lb - ea)).
    { apply np_around_le. rewrite <- pow2_Z by lia.
      rewrite <- pow2_div. by apply Qdiv_le_mono. }
    apply Qle_trans with (pow2 lb).
    + apply Qle_trans with (inject_Z (2 ^ (lb - ea)) * pow2 ea)%Q.
      * apply Qmult_le_compat_r; [|lra]. by rewrite <- Zle_Qle.
      * rewrite <- pow2_Z, <- pow2_add by lia.
        replace (lb - ea + ea) with lb by lia. apply Qle_refl.
    + apply Qle_trans with (inject_Z (2 ^ (prec fmt - 1)) * pow2 eb)%Q.
      * rewrite <- pow2_Z, <- pow2_add by lia.
        replace (prec fmt - 1 + eb) with lb by lia. apply Qle_refl.
      * apply Qmult_le_compat_r; [|lra]. by rewrite <- Zle_Qle.
Qed.

Lemma log2_floor_inject_Z k : 0 < k -> log2_floor (inject_Z k) = Z.log2 k.
Proof.
  intros Hk. destruct (Z.log2_spec k Hk) as [H1 H2].
  pose proof (Z.log2_nonneg k).
  apply log2_floor_unique.
  - rewrite pow2_Z by done. by rewrite <- Zle_Qle.
  - rewrite pow2_Z by lia. rewrite <- Zlt_Qlt. by rewrite Z.add_1_r.
Qed.

Lemma np_around_int_scaled (k : Z) (e : Z) :
  e <= 0 -> np_around (inject_Z k / pow2 e) = k * 2 ^ (- e).
Proof.
  intros He. rewrite <- (np_around_inject_Z (k * 2 ^ (- e))).
  apply np_around_comp. rewrite inject_Z_mult, <- pow2_Z by lia.
  unfold pow2. rewrite Qpower_opp. field. apply Qpower_not_0, two_neq_0.
Qed.

(** Integers of at most [prec] bits, and [2 ^ prec], are values of the
    format. *)
Lemma nearest_int fmt k :
  valid_format fmt -> 0 < k <= 2 ^ prec fmt ->
  (nearest fmt (inject_Z k) == inject_Z k)%Q.
Proof.
  intros [Hp He] Hk. unfold nearest, ulp_exponent.
  rewrite log2_floor_inject_Z by lia.
  assert (Hl : Z.log2 k <= prec fmt).
  { rewrite <- (Z.log2_pow2 (prec fmt)) by lia. apply Z.log2_le_mono. lia. }
  assert (Hemin : emin fmt <= 0) by (unfold emin; lia).
  destruct (Z.eq_dec (Z.log2 k) (prec fmt)) as [Heq|Hne].
  - (* k = 2 ^ prec *)
    assert (k = 2 ^ prec fmt).
    { destruct (Z.log2_spec k) as [H1 _]; [lia|]. rewrite Heq in H1. lia. }
    subst k. rewrite Heq.
    replace (Z.max (prec fmt - prec fmt + 1) (emin fmt)) with 1 by lia.
    rewrite (np_around_comp _ (inject_Z (2 ^ (prec fmt - 1)))).
    + rewrite np_around_inject_Z. rewrite <- !pow2_Z by lia.
      rewrite <- pow2_add. by replace (prec fmt - 1 + 1) with (prec fmt) by lia.
    + rewrite <- !pow2_Z by lia. rewrite pow2_div. reflexivity.
  - set (e := Z.max _ _). assert (e <= 0) by (unfold e; lia).
    rewrite np_around_int_scaled by done.
    rewrite inject_Z_mult, <- pow2_Z by lia.
    rewrite <- Qmult_assoc, <- pow2_add.
    replace (- e + e) with 0 by lia. rewrite pow2_0. ring.
Qed.


(** ** Values of a format *)

Lemma Qle_bool_true p q : Qle_bool p q = true <-> (p <= q)%Q.
Proof. apply Qle_bool_iff. Qed.

Lemma Qle_bool_false p q : Qle_bool p q = false <-> (q < p)%Q.
Proof.
  split.
  - intros H. apply Qnot_le_lt. intros Hle. apply Qle_bool_iff in Hle. congruence.
  - intros H. destruct (Qle_bool p q) eqn:Hb; [|done].
    apply Qle_bool_iff in Hb. lra.
Qed.

Lemma Qle_bool_comp p p' q q' :
  (p == p')%Q -> (q == q')%Q -> Qle_bool p q = Qle_bool p' q'.
Proof.
  intros Hp Hq. destruct (Qle_bool p' q') eqn:Hb.
  - apply Qle_bool_true in Hb. apply Qle_bool_true. lra.
  - apply Qle_bool_false in Hb. apply Qle_bool_false. lra.
Qed.

Lemma fleb_Fin p q : fleb (Fin p) (Fin q) = true <-> (p <= q)%Q.
Proof. apply Qle_bool_true. Qed.

Lemma fleb_not_nan a b : fleb a b = true -> a <> NaN /\ b <> NaN.
Proof. destruct a as [|[]|], b as [|[]|]; simpl; intros H; split; congruence. Qed.

Lemma fleb_trans a b c : fleb a b = true -> fleb b c = true -> fleb a c = true.
Proof.
  destruct a as [|[]|p], b as [|[]|q], c as [|[]|r]; simpl; try congruence.
  rewrite !Qle_bool_true. lra.
Qed.

Lemma fleb_refl a : a <> NaN -> fleb a a = true.
Proof. destruct a as [|[]|p]; simpl; try congruence. intros _. apply Qle_bool_true. lra. Qed.

Lemma fleb_fneg a b : fleb a b = true -> fleb (fneg b) (fneg a) = true.
Proof.
  destruct a as [|[]|p], b as [|[]|q]; simpl; try congruence.
  rewrite !Qle_bool_true. lra.
Qed.

Lemma round_pos_cases fmt a :
  (round_pos fmt a = Inf false /\ (pow2 (emax fmt) <= nearest fmt a)%Q) \/
  (exists q, round_pos fmt a = Fin q /\ (q == nearest fmt a)%Q /\
             (nearest fmt a < pow2 (emax fmt))%Q).
Proof.
  unfold round_pos. destruct (Qle_bool _ _) eqn:Hb.
  - left. by apply Qle_bool_true in Hb.
  - right. apply Qle_bool_false in Hb. eexists. split; [reflexivity|].
    split; [apply Qred_correct|done].
Qed.

Lemma round_pos_nonneg fmt a : (0 < a)%Q -> fleb (Fin 0) (round_pos fmt a) = true.
Proof.
  intros Ha. pose proof (nearest_nonneg fmt a Ha).
  destruct (round_pos_cases fmt a) as [[-> _]|(q & -> & Hq & _)]; [done|].
  apply fleb_Fin. lra.
Qed.

Lemma round_pos_comp fmt a b :
  (0 < a)%Q -> (a == b)%Q -> round_pos fmt a = round_pos fmt b.
Proof.
  intros Ha Hab. pose proof (nearest_comp fmt a b Ha Hab) as Hn.
  unfold round_pos.
  rewrite (Qle_bool_comp _ (pow2 (emax fmt)) _ (nearest fmt b)) by (done || reflexivity).
  destruct (Qle_bool _ _); [done|]. f_equal. by apply Qred_complete.
Qed.

Lemma round_pos_mono fmt a b :
  1 <= prec fmt -> (0 < a)%Q -> (a <= b)%Q ->
  fleb (round_pos fmt a) (round_pos fmt b) = true.
Proof.
  intros Hp Ha Hab. pose proof (nearest_mono fmt a b Hp Ha Hab) as Hn.
  destruct (round_pos_cases fmt a) as [[-> Ha']|(q & -> & Hq & Ha')];
    destruct (round_pos_cases fmt b) as [[-> Hb']|(r & -> & Hr & Hb')];
    simpl; try done.
  - lra.
  - apply Qle_bool_true. lra.
Qed.

Lemma round_zero fmt q : (q == 0)%Q -> round fmt q = Fin 0.
Proof.
  intros H. unfold round. destruct (q ?= 0)%Q eqn:E; [done|..].
  - apply Qlt_alt in E. lra.
  - apply Qgt_alt in E. lra.
Qed.

Lemma round_positive fmt q : (0 < q)%Q -> round fmt q = round_pos fmt q.
Proof.
  intros H. unfold round. destruct (q ?= 0)%Q eqn:E; [| |done].
  - apply Qeq_alt in E. lra.
  - apply Qlt_alt in E. lra.
Qed.

Lemma round_negative fmt q : (q < 0)%Q -> round fmt q = fneg (round_pos fmt (- q)).
Proof.
  intros H. unfold round. destruct (q ?= 0)%Q eqn:E; [|done|].
  - apply Qeq_alt in E. lra.
  - apply Qgt_alt in E. lra.
Qed.

Lemma Q_sign_cases q : (q < 0)%Q \/ (q == 0)%Q \/ (0 < q)%Q.
Proof. destruct (Q_dec q 0) as [[H|H]|H]; auto. Qed.

Lemma round_not_nan fmt q : round fmt q <> NaN.
Proof.
  destruct (Q_sign_cases q) as [H|[H|H]].
  - rewrite round_negative by done.
    by destruct (round_pos_cases fmt (- q)) as [[-> _]|(r & -> & _)].
  - by rewrite round_zero.
  - rewrite round_positive by done.
    by destruct (round_pos_cases fmt q) as [[-> _]|(r & -> & _)].
Qed.

Lemma round_comp fmt p q : (p == q)%Q -> round fmt p = round fmt q.
Proof.
  intros Hpq. destruct (Q_sign_cases p) as [H|[H|H]].
  - rewrite !round_negative by lra. f_equal. apply round_pos_comp; lra.
  - by rewrite !round_zero by lra.
  - rewrite !round_positive by lra. apply round_pos_comp; lra.
Qed.

Lemma round_nonneg fmt q : (0 <= q)%Q -> fleb (Fin 0) (round fmt q) = true.
Proof.
  intros Hq. destruct (Q_sign_cases q) as [H|[H|H]]; [lra| |].
  - rewrite round_zero by done. apply fleb_Fin. lra.
  - rewrite round_positive by done. by apply round_pos_nonneg.
Qed.

Lemma round_nonpos fmt q : (q <= 0)%Q -> fleb (round fmt q) (Fin 0) = true.
Proof.
  intros Hq. destruct (Q_sign_cases q) as [H|[H|H]]; [| |lra].
  - rewrite round_negative by done.
    assert (Hn : fleb (Fin 0) (round_pos fmt (- q)) = true)
      by (apply round_pos_nonneg; lra).
    apply fleb_fneg in Hn. simpl in Hn.
    eapply fleb_trans; [exact Hn|]. apply fleb_Fin. lra.
  - rewrite round_zero by done. apply fleb_Fin. lra.
Qed.

(** Rounding is monotone. *)
Lemma round_mono fmt p q :
  1 <= prec fmt -> (p <= q)%Q -> fleb (round fmt p) (round fmt q) = true.
Proof.
  intros Hp Hpq.
  destruct (Q_sign_cases p) as [Hp0|[Hp0|Hp0]];
    destruct (Q_sign_cases q) as [Hq0|[Hq0|Hq0]]; try lra.
  - rewrite !round_negative by done. apply fleb_fneg, round_pos_mono; [lia|lra|lra].
  - eapply fleb_trans; [apply round_nonpos|apply round_nonneg]; lra.
  - eapply fleb_trans; [apply round_nonpos|apply round_nonneg]; lra.
  - eapply fleb_trans; [apply round_nonpos|apply round_nonneg]; lra.
  - eapply fleb_trans; [apply round_nonpos|apply round_nonneg]; lra.
  - rewrite !round_positive by done. apply round_pos_mono; [lia|lra|lra].
Qed.

(** Integers of absolute value at most [2 ^ prec] are converted exactly. *)
Lemma round_int fmt k :
  valid_format fmt -> - 2 ^ prec fmt <= k <= 2 ^ prec fmt ->
  exists q, round fmt (inject_Z k) = Fin q /\ (q == inject_Z k)%Q.
Proof.
  intros Hv Hk. pose proof Hv as [Hp He].
  assert (Hbig : (inject_Z (2 ^ prec fmt) < pow2 (emax fmt))%Q).
  { rewrite <- pow2_Z by lia. apply pow2_lt. lia. }
  assert (Hpos : forall j, 0 < j <= 2 ^ prec fmt ->
            exists q, round_pos fmt (inject_Z j) = Fin q /\ (q == inject_Z j)%Q).
  { intros j Hj. pose proof (nearest_int fmt j Hv Hj) as Hn.
    destruct (round_pos_cases fmt (inject_Z j)) as [[_ Ho]|(q & -> & Hq & _)].
    - assert (inject_Z j <= inject_Z (2 ^ prec fmt))%Q by (rewrite <- Zle_Qle; lia). lra.
    - exists q. split; [done|]. lra. }
  destruct (Z.lt_trichotomy k 0) as [Hneg|[->|Hposk]].
  - rewrite round_negative by (change 0%Q with (inject_Z 0); rewrite <- Zlt_Qlt; lia).
    destruct (Hpos (- k)) as (q & Hq & Hqe); [lia|].
    rewrite (round_pos_comp fmt _ (inject_Z (- k))).
    + rewrite Hq. simpl. eexists. split; [reflexivity|].
      rewrite Hqe, inject_Z_opp. ring.
    + rewrite <- inject_Z_opp. change 0%Q with (inject_Z 0). rewrite <- Zlt_Qlt. lia.
    + by rewrite inject_Z_opp.
  - exists 0%Q. split; [by apply round_zero|reflexivity].
  - rewrite round_positive by (change 0%Q with (inject_Z 0); rewrite <- Zlt_Qlt; lia).
    apply Hpos. lia.
Qed.


(** ** Keys, clamping and the quantiser *)

Lemma key_of_int q k : (q == inject_Z k)%Q -> key_of (Fin q) = Some k.
Proof.
  intros Hq. unfold key_of.
  assert (Hf : Qfloor q = k) by (rewrite (Qfloor_comp _ _ Hq); apply Qfloor_Z).
  rewrite Hf. replace (Qeq_bool q (inject_Z k)) with true; [done|].
  symmetry. by apply Qeq_bool_iff.
Qed.

Lemma key_of_Some x k :
  key_of x = Some k -> exists q, x = Fin q /\ (q == inject_Z k)%Q.
Proof.
  destruct x as [| |q]; simpl; try discriminate.
  destruct (Qeq_bool q (inject_Z (Qfloor q))) eqn:Hb; [|discriminate].
  intros [= <-]. exists q. split; [done|]. by apply Qeq_bool_iff.
Qed.

Lemma np_maximum_Fin p q :
  np_maximum (Fin p) (Fin q) = if Qle_bool p q then Fin q else Fin p.
Proof. reflexivity. Qed.

Lemma np_minimum_Fin p q :
  np_minimum (Fin p) (Fin q) = if Qle_bool p q then Fin p else Fin q.
Proof. reflexivity. Qed.

(** The clamp of lines 138 on an integer-valued entry, an infinite one and
    a NaN; [qh] is the upper bound [h] as a float. *)
Lemma clamp_Fin (k h : Z) p qh :
  (p == inject_Z k)%Q -> (qh == inject_Z h)%Q ->
  key_of (np_minimum (np_maximum (Fin p) (Fin 0)) (Fin qh))
  = Some (Z.min (Z.max k 0) h).
Proof.
  intros Hp Hh. rewrite np_maximum_Fin.
  destruct (Qle_bool p 0) eqn:H0.
  - apply Qle_bool_true in H0.
    assert (k <= 0) by (rewrite Zle_Qle; change (inject_Z 0) with 0%Q; lra).
    rewrite np_minimum_Fin. destruct (Qle_bool 0 qh) eqn:H1.
    + apply Qle_bool_true in H1.
      assert (0 <= h) by (rewrite Zle_Qle; change (inject_Z 0) with 0%Q; lra).
      rewrite (key_of_int 0 0) by reflexivity. f_equal. lia.
    + apply Qle_bool_false in H1.
      assert (h < 0) by (rewrite Zlt_Qlt; change (inject_Z 0) with 0%Q; lra).
      rewrite (key_of_int qh h) by done. f_equal. lia.
  - apply Qle_bool_false in H0.
    assert (0 < k) by (rewrite Zlt_Qlt; change (inject_Z 0) with 0%Q; lra).
    rewrite np_minimum_Fin. destruct (Qle_bool p qh) eqn:H1.
    + apply Qle_bool_true in H1.
      assert (k <= h) by (rewrite Zle_Qle; lra).
      rewrite (key_of_int p k) by done. f_equal. lia.
    + apply Qle_bool_false in H1.
      assert (h < k) by (rewrite Zlt_Qlt; lra).
      rewrite (key_of_int qh h) by done. f_equal. lia.
Qed.

Lemma clamp_Inf_pos (h : Z) qh :
  (qh == inject_Z h)%Q ->
  key_of (np_minimum (np_maximum (Inf false) (Fin 0)) (Fin qh)) = Some h.
Proof. intros Hh. simpl. by apply key_of_int. Qed.

Lemma clamp_Inf_neg (h : Z) qh :
  (qh == inject_Z h)%Q ->
  key_of (np_minimum (np_maximum (Inf true) (Fin 0)) (Fin qh)) = Some (Z.min 0 h).
Proof.
  intros Hh. change (np_maximum (Inf true) (Fin 0)) with (Fin 0).
  change (Fin 0) with (np_maximum (Fin 0) (Fin 0)).
  rewrite (clamp_Fin 0 h 0 qh) by (done || reflexivity). f_equal.
Qed.

Lemma of_int_exact fmt n :
  valid_format fmt -> - 2 ^ prec fmt <= n <= 2 ^ prec fmt ->
  exists q, of_int fmt n = Fin q /\ (q == inject_Z n)%Q.
Proof. apply round_int. Qed.

(** The index of a finite entry: the product is rounded to the format,
    then to an integer, then clamped. *)
Lemma index_Fin fmt n q :
  valid_format fmt -> 0 <= n <= 2 ^ prec fmt ->
  match round fmt (q * inject_Z n) with
  | Fin p => index fmt n (Fin q) = Some (Z.min (Z.max (np_around p) 0) (n - 1))
  | Inf false => index fmt n (Fin q) = Some (n - 1)
  | Inf true => index fmt n (Fin q) = Some (Z.min 0 (n - 1))
  | NaN => False
  end.
Proof.
  intros Hv Hn. assert (0 < 2 ^ prec fmt) by (apply Z.pow_pos_nonneg; destruct Hv; lia).
  destruct (of_int_exact fmt n Hv) as (qn & Hqn & Hqn'); [lia|].
  destruct (of_int_exact fmt (n - 1) Hv) as (qh & Hqh & Hqh'); [lia|].
  unfold index, quantize. rewrite Hqn, Hqh. cbn [fmul].
  rewrite (round_comp fmt (q * qn) (q * inject_Z n)) by (by rewrite Hqn').
  pose proof (round_not_nan fmt (q * inject_Z n)) as Hnn.
  destruct (round fmt (q * inject_Z n)) as [|[]|p]; [done|..].
  - by apply clamp_Inf_neg.
  - by apply clamp_Inf_pos.
  - cbn [np_around_f]. by apply clamp_Fin.
Qed.

Lemma index_NaN fmt n : index fmt n NaN = None.
Proof. reflexivity. Qed.

Lemma index_Inf fmt n s :
  valid_format fmt -> 1 <= n <= 2 ^ prec fmt ->
  index fmt n (Inf s) = Some (if s then 0 else n - 1).
Proof.
  intros Hv Hn.
  destruct (of_int_exact fmt n Hv) as (qn & Hqn & Hqn'); [lia|].
  destruct (of_int_exact fmt (n - 1) Hv) as (qh & Hqh & Hqh'); [lia|].
  unfold index, quantize. rewrite Hqn, Hqh. cbn [fmul].
  assert (Hpos : (0 < qn)%Q).
  { rewrite Hqn'. change 0%Q with (inject_Z 0). rewrite <- Zlt_Qlt. lia. }
  apply Qgt_alt in Hpos. rewrite Hpos. cbn [np_around_f].
  destruct s.
  - rewrite (clamp_Inf_neg (n - 1)) by done. f_equal. lia.
  - by apply clamp_Inf_pos.
Qed.

(** With at least one symbol every entry that is not NaN gets an index of
    the vocabulary. *)
Lemma index_range fmt n v :
  valid_format fmt -> 1 <= n <= 2 ^ prec fmt -> v <> NaN ->
  exists k, index fmt n v = Some k /\ 0 <= k <= n - 1.
Proof.
  intros Hv Hn Hnan. destruct v as [|s|q]; [done| |].
  - rewrite index_Inf by done. eexists. split; [reflexivity|]. destruct s; lia.
  - assert (Hn0 : 0 <= n <= 2 ^ prec fmt) by lia.
    pose proof (index_Fin fmt n q Hv Hn0) as H.
    destruct (round fmt (q * inject_Z n)) as [|[]|p]; [done|..];
      rewrite H; eexists; (split; [reflexivity|lia]).
Qed.

Lemma inject_Z_pos n : 0 < n -> (0 < inject_Z n)%Q.
Proof. intros H. change 0%Q with (inject_Z 0). by rewrite <- Zlt_Qlt. Qed.

Lemma inject_Z_nonneg n : 0 <= n -> (0 <= inject_Z n)%Q.
Proof. intros H. change 0%Q with (inject_Z 0). by rewrite <- Zle_Qle. Qed.

Lemma inject_Z_ge_1 n : 1 <= n -> (1 <= inject_Z n)%Q.
Proof. intros H. change 1%Q with (inject_Z 1). by rewrite <- Zle_Qle. Qed.

Lemma index_negative fmt n q :
  valid_format fmt -> 1 <= n <= 2 ^ prec fmt -> (q < 0)%Q ->
  index fmt n (Fin q) = Some 0.
Proof.
  intros Hv Hn Hq. assert (Hn0 : 0 <= n <= 2 ^ prec fmt) by lia.
  pose proof (index_Fin fmt n q Hv Hn0) as H.
  pose proof (inject_Z_ge_1 n ltac:(lia)) as Hn1.
  assert (Hprod : (q * inject_Z n <= 0)%Q) by nra.
  pose proof (round_nonpos fmt _ Hprod) as Hr.
  destruct (round fmt (q * inject_Z n)) as [|[]|p]; [done| | |].
  - rewrite H. f_equal. lia.
  - discriminate Hr.
  - apply fleb_Fin in Hr. rewrite H. f_equal.
    assert (np_around p <= 0) by (by apply np_around_le). lia.
Qed.

Lemma index_large fmt n q :
  valid_format fmt -> 1 <= n <= 2 ^ prec fmt -> (1 <= q)%Q ->
  index fmt n (Fin q) = Some (n - 1).
Proof.
  intros Hv Hn Hq. assert (Hn0 : 0 <= n <= 2 ^ prec fmt) by lia.
  pose proof (index_Fin fmt n q Hv Hn0) as H.
  pose proof (inject_Z_ge_1 n ltac:(lia)) as Hn1.
  assert (Hprod : (inject_Z n <= q * inject_Z n)%Q) by nra.
  assert (Hp1 : 1 <= prec fmt) by (destruct Hv; lia).
  pose proof (round_mono fmt _ _ Hp1 Hprod) as Hr.
  destruct (round_int fmt n Hv) as (qn & Hqn & Hqn'); [lia|].
  rewrite Hqn in Hr.
  destruct (round fmt (q * inject_Z n)) as [|[]|p]; [done| | |].
  - discriminate Hr.
  - done.
  - apply fleb_Fin in Hr. rewrite H. f_equal.
    assert (n <= np_around p) by (apply np_around_ge; lra). lia.
Qed.

Lemma index_empty_vocabulary fmt q :
  valid_format fmt -> index fmt 0 (Fin q) = Some (-1).
Proof.
  intros Hv.
  assert (Hpow : 0 < 2 ^ prec fmt) by (apply Z.pow_pos_nonneg; destruct Hv; lia).
  pose proof (index_Fin fmt 0 q Hv ltac:(lia)) as H.
  rewrite (round_zero fmt (q * inject_Z 0)) in H by (change (inject_Z 0) with 0%Q; ring).
  rewrite H. change (np_around 0) with 0. reflexivity.
Qed.

(** ** Order *)

Lemma np_around_f_mono a b :
  fleb a b = true -> fleb (np_around_f a) (np_around_f b) = true.
Proof.
  destruct a as [|[]|p], b as [|[]|q]; simpl; try done.
  rewrite !Qle_bool_true. intros H. rewrite <- Zle_Qle. by apply np_around_mono.
Qed.

Lemma np_maximum_mono a b c :
  fleb a b = true -> c <> NaN -> fleb (np_maximum a c) (np_maximum b c) = true.
Proof.
  intros Hab Hc.
  destruct a as [|[]|p], b as [|[]|q], c as [|[]|r]; simpl in *; try done;
    repeat match goal with
           | |- context [Qle_bool ?x ?y] => destruct (Qle_bool x y) eqn:?
           end; simpl; try done;
    repeat match goal with
           | H : Qle_bool _ _ = true |- _ => apply Qle_bool_true in H
           | H : Qle_bool _ _ = false |- _ => apply Qle_bool_false in H
           end; try (apply Qle_bool_true); try lra.
Qed.

Lemma np_minimum_mono a b c :
  fleb a b = true -> c <> NaN -> fleb (np_minimum a c) (np_minimum b c) = true.
Proof.
  intros Hab Hc.
  destruct a as [|[]|p], b as [|[]|q], c as [|[]|r]; simpl in *; try done;
    repeat match goal with
           | |- context [Qle_bool ?x ?y] => destruct (Qle_bool x y) eqn:?
           end; simpl; try done;
    repeat match goal with
           | H : Qle_bool _ _ = true |- _ => apply Qle_bool_true in H
           | H : Qle_bool _ _ = false |- _ => apply Qle_bool_false in H
           end; try (apply Qle_bool_true); try lra.
Qed.

Lemma np_maximum_not_nan a b : np_maximum a b <> NaN -> a <> NaN /\ b <> NaN.
Proof. destruct a as [|[]|p], b as [|[]|q]; simpl; intros H; split; congruence. Qed.

Lemma np_minimum_not_nan a b : np_minimum a b <> NaN -> a <> NaN /\ b <> NaN.
Proof. destruct a as [|[]|p], b as [|[]|q]; simpl; intros H; split; congruence. Qed.

Lemma np_around_f_not_nan a : np_around_f a <> NaN -> a <> NaN.
Proof. by destruct a. Qed.

Lemma Qcompare_cases q :
  ((q ?= 0)%Q = Lt /\ (q < 0)%Q) \/ ((q ?= 0)%Q = Eq /\ (q == 0)%Q) \/
  ((q ?= 0)%Q = Gt /\ (0 < q)%Q).
Proof.
  destruct (q ?= 0)%Q eqn:E.
  - right. left. split; [done|]. by apply Qeq_alt.
  - left. split; [done|]. by apply Qlt_alt.
  - right. right. split; [done|]. by apply Qgt_alt.
Qed.

(** Multiplication by a non-negative factor keeps the order of the values
    whose products are not NaN. *)
Lemma fmul_mono fmt a b c :
  1 <= prec fmt -> fleb a b = true -> fleb (Fin 0) c = true ->
  fmul fmt a c <> NaN -> fmul fmt b c <> NaN ->
  fleb (fmul fmt a c) (fmul fmt b c) = true.
Proof.
  intros Hp Hab Hc Ha Hb.
  destruct c as [|[]|r]; [done|done| |].
  - (* the factor is infinite *)
    destruct a as [|[]|p], b as [|[]|q]; simpl in *; try done;
      repeat match goal with
             | H : context [(?x ?= 0)%Q] |- _ =>
                 let E := fresh "E" in
                 destruct (Qcompare_cases x) as [[E ?]|[[E ?]|[E ?]]];
                 rewrite E in *; clear E
             | |- context [(?x ?= 0)%Q] =>
                 let E := fresh "E" in
                 destruct (Qcompare_cases x) as [[E ?]|[[E ?]|[E ?]]];
                 rewrite E in *; clear E
             end; simpl in *;
      first [done | congruence | (apply Qle_bool_true in Hab; first [lra | exfalso; lra])].
  - apply fleb_Fin in Hc.
    destruct a as [|[]|p], b as [|[]|q]; simpl in *; try done;
      repeat match goal with
             | H : context [(?x ?= 0)%Q] |- _ =>
                 let E := fresh "E" in
                 destruct (Qcompare_cases x) as [[E ?]|[[E ?]|[E ?]]];
                 rewrite E in *; clear E
             | |- context [(?x ?= 0)%Q] =>
                 let E := fresh "E" in
                 destruct (Qcompare_cases x) as [[E ?]|[[E ?]|[E ?]]];
                 rewrite E in *; clear E
             end; simpl in *;
      first [ done | congruence | (exfalso; lra)
            | match goal with
              | |- context [round ?f ?x] =>
                  by destruct (round f x) as [|[]|]
              end
            | (apply Qle_bool_true in Hab; apply round_mono; [done|nra]) ].
Qed.

Lemma quantize_mono fmt n v1 v2 :
  1 <= prec fmt -> 0 <= n -> fleb v1 v2 = true ->
  quantize fmt n v1 <> NaN -> quantize fmt n v2 <> NaN ->
  fleb (quantize fmt n v1) (quantize fmt n v2) = true.
Proof.
  intros Hp Hn Hv H1 H2. unfold quantize in *.
  apply np_minimum_not_nan in H1 as [H1 Hh]. apply np_minimum_not_nan in H2 as [H2 _].
  apply np_maximum_not_nan in H1 as [H1 _]. apply np_maximum_not_nan in H2 as [H2 _].
  apply np_around_f_not_nan in H1, H2.
  apply np_minimum_mono; [|done]. apply np_maximum_mono; [|done].
  apply np_around_f_mono. apply fmul_mono; try done.
  apply round_nonneg. by apply inject_Z_nonneg.
Qed.

Lemma index_mono fmt n v1 v2 k1 k2 :
  1 <= prec fmt -> 0 <= n -> fleb v1 v2 = true ->
  index fmt n v1 = Some k1 -> index fmt n v2 = Some k2 -> k1 <= k2.
Proof.
  intros Hp Hn Hv H1 H2. unfold index in *.
  apply key_of_Some in H1 as (q1 & Hq1 & Hk1).
  apply key_of_Some in H2 as (q2 & Hq2 & Hk2).
  pose proof (quantize_mono fmt n v1 v2 Hp Hn Hv) as Hm.
  rewrite Hq1, Hq2 in Hm. specialize (Hm ltac:(done) ltac:(done)).
  apply fleb_Fin in Hm. rewrite Zle_Qle. lra.
Qed.

(** ** Decoding the quotient of an index by the vocabulary size *)


(** ** Joining and splitting *)


Lemma concat_cons_cons sep h x l :
  String.concat sep (h :: x :: l) = (h +:+ sep +:+ String.concat sep (x :: l))%string.
Proof. reflexivity. Qed.



(** ** Decoding *)

Lemma getitem_Some (d : gmap Z string) k s : d !! k = Some s -> getitem d k = Ok s.
Proof. intros H. unfold getitem. by rewrite H. Qed.

Lemma getitem_None (d : gmap Z string) k : d !! k = None -> getitem d k = Raise KeyError.
Proof. intros H. unfold getitem. by rewrite H. Qed.

(** ** Method bodies *)

Lemma bind_attribute {A B} (f : DatasetConversion -> A) (k : A -> method B) self :
  (attribute f ≫= k) self = k (f self) self.
Proof. reflexivity. Qed.

Lemma bind_local {A B} (o : outcome A) (k : A -> method B) self :
  (local o ≫= k) self
  = match o with
    | Ok a => k a self
    | Raise e => (Raise e, self)
    | Exit c => (Exit c, self)
    end.
Proof. by destruct o. Qed.

Lemma bind_run {A B} (m : method A) (k : A -> method B) (o : outcome A) self :
  m self = (o, self) ->
  (m ≫= k) self
  = match o with
    | Ok a => k a self
    | Raise e => (Raise e, self)
    | Exit c => (Exit c, self)
    end.
Proof.
  intros H. unfold mbind, method_bind. rewrite H. by destruct o.
Qed.

Lemma for_each_method_run {S I} (body : S -> I -> method S)
    (pure : S -> I -> outcome S) self (it : list I) (s : S) :
  (forall s i, body s i self = (pure s i, self)) ->
  for_each_method body it s self = (for_each pure it s, self).
Proof.
  intros Hbody. revert s. induction it as [|i it IH]; intros s; [reflexivity|].
  cbn [for_each_method for_each]. rewrite (bind_run _ _ _ _ (Hbody s i)).
  destruct (pure s i); [apply IH|reflexivity|reflexivity].
Qed.

Lemma comprehension_method_run {A B} (f : A -> method B) (pure : A -> outcome B)
    self (l : list A) :
  (forall x, f x self = (pure x, self)) ->
  comprehension_method f l self = (comprehension pure l, self).
Proof.
  intros Hf. induction l as [|x l IH]; [reflexivity|].
  cbn [comprehension_method comprehension]. rewrite (bind_run _ _ _ _ (Hf x)).
  destruct (pure x); [|reflexivity|reflexivity].
  rewrite (bind_run _ _ _ _ IH).
  by destruct (comprehension pure l).
Qed.

(** *** Bodies that leave the instance as it is *)

Lemma readonly_mret {A} (a : A) : readonly (mret a : method A).
Proof. by intros self. Qed.

Lemma readonly_attribute {A} (f : DatasetConversion -> A) : readonly (attribute f).
Proof. by intros self. Qed.

Lemma readonly_local {A} (o : outcome A) : readonly (local o).
Proof. by intros self. Qed.

Lemma readonly_bind {A B} (m : method A) (k : A -> method B) :
  readonly m -> (forall a, readonly (k a)) -> readonly (m ≫= k).
Proof.
  intros Hm Hk self. unfold mbind, method_bind.
  specialize (Hm self).
  destruct (m self) as [[a|e|c] self'] eqn:E; cbn [snd] in Hm; subst self';
    [apply Hk|reflexivity|reflexivity].
Qed.

Lemma readonly_for_each_method {S I} (body : S -> I -> method S) (it : list I) (s : S) :
  (forall s i, readonly (body s i)) -> readonly (for_each_method body it s).
Proof.
  intros Hbody. revert s. induction it as [|i it IH]; intros s.
  - apply readonly_mret.
  - cbn [for_each_method]. apply readonly_bind; [apply Hbody|apply IH].
Qed.

Lemma readonly_comprehension_method {A B} (f : A -> method B) (l : list A) :
  (forall x, readonly (f x)) -> readonly (comprehension_method f l).
Proof.
  intros Hf. induction l as [|x l IH].
  - apply readonly_mret.
  - cbn [comprehension_method]. apply readonly_bind; [apply Hf|].
    intros y. apply readonly_bind; [apply IH|]. intros ys. apply readonly_mret.
Qed.

Create HintDb readonly.
#[export] Hint Resolve readonly_mret readonly_attribute readonly_local
  readonly_bind readonly_for_each_method readonly_comprehension_method : readonly.

Section MethodBodies.

Variable sep_char : ascii.
Variable get_files_by_ext : string -> list string -> outcome (list string).
Variable midi_to_txt_file : string -> string -> string -> outcome unit.
Variable str_to_np : string -> outcome matrix.
Variable arr_to_midi : matrix -> option string -> outcome string.
Variable path_join : string -> string -> string.
Variable read_text : string -> outcome string.

Lemma midi_to_txt_method_readonly :
  readonly (midi_to_txt_method get_files_by_ext midi_to_txt_file).
Proof. unfold midi_to_txt_method. auto 10 with readonly. Qed.

Lemma txt_to_dataset_method_readonly iw ow step :
  readonly (txt_to_dataset_method get_files_by_ext str_to_np path_join read_text
              iw ow step).
Proof.
  unfold txt_to_dataset_method.
  do 5 (apply readonly_bind; [auto with readonly|intros ?]).
  apply readonly_bind; [|intros [b n]; apply readonly_mret].
  apply readonly_for_each_method. auto 10 with readonly.
Qed.

Lemma dataset_to_str_method_readonly fmt Y :
  readonly (dataset_to_str_method sep_char fmt Y).
Proof.
  unfold dataset_to_str_method.
  repeat (apply readonly_bind; [auto 10 with readonly|intros ?]).
  case_bool_decide; [apply readonly_mret|].
  apply readonly_bind; [auto with readonly|intros ?].
  case_bool_decide; auto with readonly.
Qed.

Lemma str_to_midi_method_readonly t f :
  readonly (str_to_midi_method str_to_np arr_to_midi t f).
Proof. unfold str_to_midi_method. auto 10 with readonly. Qed.

(** A call leaves the instance as it is, whatever it returns or raises. *)
Lemma perform_readonly self c :
  snd (perform sep_char get_files_by_ext midi_to_txt_file str_to_np arr_to_midi
         path_join read_text self c) = self.
Proof.
  destruct c; cbn [perform];
    (apply readonly_bind; [|intros ?; apply readonly_mret]).
  - apply midi_to_txt_method_readonly.
  - apply txt_to_dataset_method_readonly.
  - apply dataset_to_str_method_readonly.
  - apply str_to_midi_method_readonly.
Qed.

(** *** The bodies and the functions of the instance *)

Lemma midi_to_txt_method_run self :
  midi_to_txt_method get_files_by_ext midi_to_txt_file self
  = (midi_to_txt get_files_by_ext midi_to_txt_file self, self).
Proof.
  unfold midi_to_txt_method, midi_to_txt. rewrite bind_attribute, bind_local.
  destruct (get_files_by_ext (dir_path self) MIDI_EXTS) as [files|e|c];
    [|reflexivity|reflexivity].
  cbn [mbind outcome_bind]. by apply for_each_method_run.
Qed.

Lemma dataset_to_str_method_run fmt Y self :
  dataset_to_str_method sep_char fmt Y self
  = (dataset_to_str sep_char fmt self Y, self).
Proof.
  unfold dataset_to_str_method, dataset_to_str. rewrite !bind_attribute.
  rewrite (bind_run _ _ (comprehension (getitem_float (int_to_data self))
                           (map (quantize fmt (vocabulary_size self)) Y))).
  - destruct (comprehension _ _) as [Y_str|e|c]; [|reflexivity|reflexivity].
    cbn [mbind outcome_bind]. rewrite bind_attribute.
    case_bool_decide; [reflexivity|]. rewrite bind_attribute.
    case_bool_decide; reflexivity.
  - rewrite map_map.
    by apply comprehension_method_run.
Qed.

Lemma str_to_midi_method_run t f self :
  str_to_midi_method str_to_np arr_to_midi t f self
  = (str_to_midi str_to_np arr_to_midi self t f, self).
Proof.
  unfold str_to_midi_method, str_to_midi. rewrite bind_local.
  by destruct (str_to_np t).
Qed.


End MethodBodies.

(** ** Lookups with float keys *)

Lemma getitem_float_lookup (d : gmap Z string) x :
  getitem_float d x
  = match lookup_float d x with
    | Some s => Ok s
    | None => Raise KeyError
    end.
Proof.
  unfold getitem_float, lookup_float, getitem.
  destruct (key_of x) as [k|]; [|reflexivity].
  cbn [mbind option_bind]. by destruct (d !! k).
Qed.

Lemma lookup_float_index (d : gmap Z string) fmt n v :
  lookup_float d (quantize fmt n v) = k ← index fmt n v; d !! k.
Proof. reflexivity. Qed.

Lemma comprehension_getitem_float (d : gmap Z string) (xs : list npfloat)
    (vals : list string) :
  Forall2 (fun x s => lookup_float d x = Some s) xs vals ->
  comprehension (getitem_float d) xs = Ok vals.
Proof.
  induction 1 as [|x s xs vals Hx _ IH]; [reflexivity|].
  cbn [comprehension]. rewrite getitem_float_lookup, Hx.
  cbn [mbind outcome_bind]. by rewrite IH.
Qed.

Lemma comprehension_getitem_float_missing (d : gmap Z string) (xs : list npfloat) :
  Exists (fun x => lookup_float d x = None) xs ->
  comprehension (getitem_float d) xs = Raise KeyError.
Proof.
  induction xs as [|x xs IH]; intros H; [by inversion H|].
  cbn [comprehension]. rewrite getitem_float_lookup.
  destruct (lookup_float d x) as [s|] eqn:Hx; [|reflexivity].
  cbn [mbind outcome_bind].
  rewrite IH; [reflexivity|]. inversion H; [congruence|done].
Qed.

Lemma comprehension_getitem_float_cases (d : gmap Z string) (xs : list npfloat) :
  (exists vals, comprehension (getitem_float d) xs = Ok vals) \/
  (comprehension (getitem_float d) xs = Raise KeyError /\
   Exists (fun x => lookup_float d x = None) xs).
Proof.
  induction xs as [|x xs IH]; [left; by exists []|].
  cbn [comprehension]. rewrite getitem_float_lookup.
  destruct (lookup_float d x) as [s|] eqn:Hx.
  - cbn [mbind outcome_bind].
    destruct IH as [[vals ->]|[-> Hex]].
    + left. by exists (s :: vals).
    + right. split; [reflexivity|]. by apply Exists_cons_tl.
  - right. split; [reflexivity|]. by apply Exists_cons_hd.
Qed.

Lemma comprehension_getitem_float_total (d : gmap Z string) (xs : list npfloat) :
  Forall (fun x => is_Some (lookup_float d x)) xs ->
  exists vals, comprehension (getitem_float d) xs = Ok vals.
Proof.
  induction 1 as [|x xs [s Hx] _ [vals IH]]; [by exists []|].
  exists (s :: vals). cbn [comprehension]. rewrite getitem_float_lookup, Hx.
  cbn [mbind outcome_bind]. by rewrite IH.
Qed.

(** ** The encoder *)



(** A body that stores into a dictionary does not leave the instance as
    it is. *)
Lemma encode_is_not_readonly : ~ readonly (encode "a").
Proof.
  intros H. specialize (H dc_word).
  apply (f_equal (fun self => data_to_int self !! "a")) in H.
  discriminate H.
Qed.







(** ** Decoding the quantized identity encoding *)


(** ** Concrete matrices *)

Lemma ramp_timestep_matrix (T : nat) : timestep_matrix (Z.of_nat T) (ramp T).
Proof.
  unfold timestep_matrix, ramp. split; [apply repeat_length|].
  apply Forall_forall. intros r Hr. apply list_elem_of_In, repeat_spec in Hr. subst r.
  by rewrite length_map, length_seq.
Qed.


(** The inner loop runs once per example of the specification's count. *)
Lemma iterations_per_file T nin nout step n :
  num_examples T (nin + nout) step = Ok n ->
  length (range n) = Z.to_nat (example_count T nin nout step).
Proof.
  unfold num_examples, floordiv, example_count.
  destruct (step =? 0); [discriminate|]. intros [= <-].
  rewrite length_range. replace (T - nin - nout) with (T - (nin + nout)) by lia.
  lia.
Qed.

(** * The claims *)

(** C1.  The inner loop draws [max(0, floor((T - input_size - output_size)
    / stride))] examples from a file, and a file shorter than one window
    pair yields none without raising; but such a file is not neutral: line
    119 adds its negative [num_examples] to [file_example_start_idx].  With
    the default sizes and stride 1, a file of width 30 alone gives 13
    examples, and followed by a file of width 10 the returned dataset has
    13 + (-7) = 6 examples, not 13 + 0. *)
Theorem short_file_lowers_example_total :
  example_counts (txt_to_dataset dc_word [ramp 30] None None 1) = Ok (13, 13) /\
  example_counts (txt_to_dataset dc_word [ramp 30; ramp 10] None None 1)
  = Ok (6, 6) /\
  example_counts (txt_to_dataset dc_word [ramp 10; ramp 30] None None 1)
  = Ok (6, 6) /\
  example_count 30 16 1 1 + example_count 10 16 1 1 = 13.
Proof. repeat split; vm_compute; reflexivity. Qed.

(** C2.  The output window default is not resolved on its own: line 73
    tests [input_window_size].  A call that supplies only the input window
    size gets [None] as output window size and raises [TypeError] at line
    79; a call that supplies only the output window size gets 1. *)
Theorem output_default_tests_input_argument
    self (datasets : list matrix) (n k step : Z) :
  num_output_size (Some n) None = None /\
  txt_to_dataset self datasets (Some n) None step = Raise TypeError /\
  num_output_size None (Some k) = Some DEFAULT_NUM_OUTPUT.
Proof. repeat split. Qed.

(** C5.  For a corpus of one file of width 10 and the default sizes the
    file's example count is 0, but the returned arrays have 9993 rows:
    [file_example_start_idx] ends at -7 and [X[:-7]] keeps all but the last
    seven rows of the zero-filled buffer. *)
Theorem short_corpus_returns_padding :
  example_counts (txt_to_dataset dc_word [ramp 10] None None 1)
  = Ok (9993, 9993) /\
  example_count 10 16 1 1 = 0.
Proof. split; vm_compute; reflexivity. Qed.





Lemma lookup_flat_map_middle {A B} (f : A -> list B) (pre post : list A) (a : A) (i : nat) :
  flat_map f (pre ++ a :: post) !! (length (flat_map f pre) + i)%nat
  = (f a ++ flat_map f post) !! i.
Proof.
  rewrite flat_map_app. cbn [flat_map].
  by rewrite lookup_app_r, Nat.add_comm, Nat.add_sub by lia.
Qed.

(** C6.  For a timestep matrix of width [T] and every index [i] of the
    inner loop, the input window has the entries of columns [i*step] to
    [i*step + input_size - 1] and the output window those of the
    [output_size] columns that follow, both over all 128 rows; and in a
    corpus whose files are all at least one window pair wide the two
    windows are the rows of [X] and [Y] at the file's offset plus [i]. *)
Theorem windows_are_adjacent_columns T (m : matrix) step nin nout n i :
  timestep_matrix T m -> 0 <= nin -> 0 <= nout -> 1 <= step ->
  num_examples T (nin + nout) step = Ok n -> i ∈ range n ->
  exists x y : matrix,
    input_x m i step nin = Ok x /\
    output_y m i step nin (nin + nout) nout = Ok y /\
    length x = NOTES /\ Forall (fun r => Z.of_nat (length r) = nin) x /\
    length y = NOTES /\ Forall (fun r => Z.of_nat (length r) = nout) y /\
    (forall r j : nat, Z.of_nat j < nin ->
       entry x r j = entry m r (Z.to_nat (i * step) + j)) /\
    (forall r j : nat, Z.of_nat j < nout ->
       entry y r j = entry m r (Z.to_nat (i * step + nin) + j)) /\
    (forall self (pre post : list matrix),
       long_enough nin nout (pre ++ m :: post) ->
       exists X Y : tensor,
         txt_to_dataset self (pre ++ m :: post) (Some nin) (Some nout) step
         = Ok (X, Y) /\
         X !! (length (flat_map (windows_x step nin nout) pre) + Z.to_nat i)%nat
         = Some x /\
         Y !! (length (flat_map (windows_y step nin nout) pre) + Z.to_nat i)%nat
         = Some y).
Proof.
  intros Hm Hin Hout Hstep Hn Hi.
  unfold num_examples, floordiv in Hn.
  destruct (Z.eqb_spec step 0); [lia|]. injection Hn as <-.
  apply elem_of_range in Hi.
  destruct (window_inside _ _ _ _ Hstep Hi) as [Hlo Hhi].
  exists (slice_cols (i * step) (i * step + nin) m),
         (slice_cols (i * step + nin) (i * step + nin + nout) m).
  split; [by apply (input_x_ok T m i step nin nout)|].
  split; [by apply (output_y_ok T)|].
  split; [rewrite length_slice_cols; apply Hm|].
  split.
  { eapply Forall_impl; [eapply (slice_cols_rows T); [done|lia|lia]|].
    intros r Hr. cbv beta in *. lia. }
  split; [rewrite length_slice_cols; apply Hm|].
  split.
  { eapply Forall_impl; [eapply (slice_cols_rows T); [done|lia|lia]|].
    intros r Hr. cbv beta in *. lia. }
  split; [intros r j Hj; apply (slice_cols_entry T); [done|lia|lia|lia]|].
  split; [intros r j Hj; apply (slice_cols_entry T); [done|lia|lia|lia]|].
  intros self pre post Hall. eexists _, _.
  split; [by apply txt_to_dataset_exact|].
  rewrite !lookup_flat_map_middle.
  assert (Hcount : example_count (shape1 m) nin nout step
                   = (T - (nin + nout)) / step).
  { unfold example_count. rewrite (shape1_timestep_matrix T) by done.
    replace (T - nin - nout) with (T - (nin + nout)) by lia. lia. }
  unfold windows_x, windows_y. rewrite Hcount.
  rewrite !lookup_app_l by (rewrite length_map, length_range; lia).
  rewrite !list_lookup_fmap, !range_lookup by lia.
  rewrite Z2Nat.id by lia. done.
Qed.

Lemma windows_are_adjacent_columns_witness :
  timestep_matrix 30 (ramp 30) /\ 0 <= 16 /\ 0 <= 1 /\ 1 <= 1 /\
  num_examples 30 (16 + 1) 1 = Ok 13 /\ 5 ∈ range 13 /\
  exists x y : matrix,
    input_x (ramp 30) 5 1 16 = Ok x /\
    output_y (ramp 30) 5 1 16 (16 + 1) 1 = Ok y /\
    length x = NOTES /\ Forall (fun r => Z.of_nat (length r) = 16) x /\
    length y = NOTES /\ Forall (fun r => Z.of_nat (length r) = 1) y /\
    (forall r j : nat, Z.of_nat j < 16 ->
       entry x r j = entry (ramp 30) r (Z.to_nat (5 * 1) + j)) /\
    (forall r j : nat, Z.of_nat j < 1 ->
       entry y r j = entry (ramp 30) r (Z.to_nat (5 * 1 + 16) + j)) /\
    (forall self (pre post : list matrix),
       long_enough 16 1 (pre ++ ramp 30 :: post) ->
       exists X Y : tensor,
         txt_to_dataset self (pre ++ ramp 30 :: post) (Some 16) (Some 1) 1
         = Ok (X, Y) /\
         X !! (length (flat_map (windows_x 1 16 1) pre) + Z.to_nat 5)%nat
         = Some x /\
         Y !! (length (flat_map (windows_y 1 16 1) pre) + Z.to_nat 5)%nat
         = Some y).
Proof.
  assert (H5 : 5 ∈ range 13) by (apply elem_of_range; lia).
  split; [exact (ramp_timestep_matrix 30)|].
  split; [lia|]. split; [lia|]. split; [lia|].
  split; [reflexivity|]. split; [exact H5|].
  apply (windows_are_adjacent_columns 30 (ramp 30) 1 16 1 13 5);
    [exact (ramp_timestep_matrix 30) | lia | lia | lia | reflexivity | exact H5].
Defined.

(** C7 (as stated).  Constructing with the mode ['note'] does not return:
    the constructor ends the process with status 1, and no exception
    carrying a configuration error reaches the caller. *)
Lemma init_bad_mode_exits :
  "note" <> "word" /\ "note" <> "char" /\
  __init__ "." "note" = Exit 1 /\
  (forall e, __init__ "." "note" <> Raise e) /\
  (forall self, __init__ "." "note" <> Ok self).
Proof. repeat split; try discriminate; reflexivity. Qed.

(** C7 (amended).  Constructing with ['word'] or ['char'] succeeds, with
    that mode recorded, the given directory and two empty dictionaries;
    constructing with any other value ends the process with exit status
    1. *)
Theorem init_accepts_word_and_char directory_path sep :
  (sep = "word" \/ sep = "char" ->
   __init__ directory_path sep
   = Ok {| data_to_int := ∅; int_to_data := ∅;
           dir_path := directory_path; sep_by_type := sep |}) /\
  (sep <> "word" -> sep <> "char" -> __init__ directory_path sep = Exit 1).
Proof.
  unfold __init__. split.
  - intros Hsep. rewrite bool_decide_eq_true_2; [done|].
    destruct Hsep as [-> | ->]; set_solver.
  - intros Hw Hc. rewrite bool_decide_eq_false_2; [done|].
    rewrite !elem_of_cons, elem_of_nil. tauto.
Qed.

Lemma init_accepts_word_and_char_witness :
  __init__ "." "char"
  = Ok {| data_to_int := ∅; int_to_data := ∅; dir_path := "."; sep_by_type := "char" |} /\
  __init__ "." "" = Exit 1.
Proof.
  split.
  - apply (init_accepts_word_and_char "." "char"). right. reflexivity.
  - apply (init_accepts_word_and_char "." ""); discriminate.
Defined.

(** C10.  In every instance a session can hold, after construction and
    after any sequence of calls of [midi_to_txt], [txt_to_dataset],
    [dataset_to_str] and [str_to_midi], both [data_to_int] and
    [int_to_data] are empty: the constructor leaves them empty and no
    statement of a method body stores into them or assigns an attribute. *)
Theorem vocabulary_stays_empty
    sep_char get_files_by_ext midi_to_txt_file str_to_np arr_to_midi
    path_join read_text self :
  reachable sep_char get_files_by_ext midi_to_txt_file str_to_np arr_to_midi
    path_join read_text self ->
  data_to_int self = ∅ /\ int_to_data self = ∅.
Proof.
  induction 1 as [directory_path sep self Hinit | self c _ IH].
  - unfold __init__ in Hinit. case_bool_decide; [|discriminate].
    injection Hinit as <-. done.
  - by rewrite perform_readonly.
Qed.

Lemma vocabulary_stays_empty_witness :
  reachable sep128 no_files no_export no_parse no_write join_slash no_text
    (snd (perform sep128 no_files no_export no_parse no_write join_slash no_text
            (snd (perform sep128 no_files no_export no_parse no_write join_slash
                    no_text dc_word (Call_txt_to_dataset None None 1)))
            (Call_dataset_to_str binary64 [Fin (1 # 2)]))) /\
  data_to_int
    (snd (perform sep128 no_files no_export no_parse no_write join_slash no_text
            (snd (perform sep128 no_files no_export no_parse no_write join_slash
                    no_text dc_word (Call_txt_to_dataset None None 1)))
            (Call_dataset_to_str binary64 [Fin (1 # 2)]))) = ∅ /\
  int_to_data
    (snd (perform sep128 no_files no_export no_parse no_write join_slash no_text
            (snd (perform sep128 no_files no_export no_parse no_write join_slash
                    no_text dc_word (Call_txt_to_dataset None None 1)))
            (Call_dataset_to_str binary64 [Fin (1 # 2)]))) = ∅.
Proof.
  assert (Hr : reachable sep128 no_files no_export no_parse no_write join_slash
    no_text
    (snd (perform sep128 no_files no_export no_parse no_write join_slash no_text
            (snd (perform sep128 no_files no_export no_parse no_write join_slash
                    no_text dc_word (Call_txt_to_dataset None None 1)))
            (Call_dataset_to_str binary64 [Fin (1 # 2)])))).
  { do 2 apply reachable_call. apply (reachable_init _ _ _ _ _ _ _ "." "word").
    reflexivity. }
  split; [exact Hr|].
  exact (vocabulary_stays_empty _ _ _ _ _ _ _ _ Hr).
Defined.

Lemma dc_abc_size mode : vocabulary_size (dc_abc mode) = 3.
Proof. reflexivity. Qed.

Lemma dc_abc_contiguous mode : contiguous (dc_abc mode).
Proof.
  intros k. rewrite dc_abc_size. cbn [int_to_data dc_abc].
  destruct (decide (k = 0)) as [->|H0]; [by split; [lia|eexists]|].
  destruct (decide (k = 1)) as [->|H1]; [by split; [lia|eexists]|].
  destruct (decide (k = 2)) as [->|H2]; [by split; [lia|eexists]|].
  rewrite !lookup_insert_ne, lookup_empty by done.
  split; [by intros [? ?]|lia].
Qed.


Lemma binary64_valid : valid_format binary64.
Proof. split; reflexivity || (cbn; lia). Qed.


(** C3 (as stated).  In the instance built by [DatasetConversion('.',
    'word')] the vocabulary is empty, the value 0.5 is quantised to the
    index -1, which is not a key of [int_to_data], and [dataset_to_str]
    raises [KeyError].  With the contiguous vocabulary a, b, c a NaN entry
    stays NaN through the rounding and the clamp, equals no key, and
    [dataset_to_str] raises [KeyError] as well. *)
Lemma clamp_does_not_prevent_key_error :
  __init__ "." "word" = Ok dc_word /\
  index binary64 (vocabulary_size dc_word) (Fin (1 # 2)) = Some (-1) /\
  int_to_data dc_word !! (-1) = None /\
  dataset_to_str sep128 binary64 dc_word [Fin (1 # 2)] = Raise KeyError /\
  contiguous (dc_abc "word") /\
  quantize binary64 (vocabulary_size (dc_abc "word")) NaN = NaN /\
  index binary64 (vocabulary_size (dc_abc "word")) NaN = None /\
  dataset_to_str sep128 binary64 (dc_abc "word") [NaN] = Raise KeyError.
Proof.
  split; [reflexivity|]. split; [vm_compute; reflexivity|].
  split; [reflexivity|]. split; [vm_compute; reflexivity|].
  split; [apply dc_abc_contiguous|].
  repeat split; vm_compute; reflexivity.
Qed.

(** C3 (amended).  When the keys of [int_to_data] are exactly the integers
    0 .. n-1 for some n >= 1 that the format of the array represents
    exactly (n at most 2 ^ prec), and no entry of the array is NaN, every
    entry is turned by the scale, round and clamp steps of
    [dataset_to_str] into a key of [int_to_data], the lookups all succeed,
    and [dataset_to_str] does not raise [KeyError]. *)
Theorem clamped_indices_are_keys sep_char fmt self (Y : list npfloat) :
  valid_format fmt -> contiguous self ->
  1 <= vocabulary_size self <= 2 ^ prec fmt ->
  Forall (fun v => v <> NaN) Y ->
  Forall (fun v => exists k, index fmt (vocabulary_size self) v = Some k /\
                             is_Some (int_to_data self !! k)) Y /\
  (exists Y_str,
     comprehension (getitem_float (int_to_data self))
       (map (quantize fmt (vocabulary_size self)) Y) = Ok Y_str) /\
  dataset_to_str sep_char fmt self Y <> Raise KeyError.
Proof.
  intros Hv Hc Hn HY.
  assert (Hkeys : Forall (fun v => exists k,
                    index fmt (vocabulary_size self) v = Some k /\
                    is_Some (int_to_data self !! k)) Y).
  { eapply Forall_impl; [exact HY|]. intros v Hnan.
    destruct (index_range fmt (vocabulary_size self) v Hv Hn Hnan) as (k & Hk & Hr).
    exists k. split; [done|]. apply Hc. lia. }
  assert (Hlook : exists Y_str,
     comprehension (getitem_float (int_to_data self))
       (map (quantize fmt (vocabulary_size self)) Y) = Ok Y_str).
  { apply comprehension_getitem_float_total. apply Forall_fmap.
    eapply Forall_impl; [exact Hkeys|]. intros v (k & Hk & Hs).
    unfold compose. by rewrite lookup_float_index, Hk. }
  split; [done|]. split; [done|].
  destruct Hlook as [Y_str Hlook]. unfold dataset_to_str. rewrite Hlook.
  cbn [mbind outcome_bind]. repeat case_bool_decide; discriminate.
Qed.

Lemma clamped_indices_are_keys_witness :
  valid_format binary64 /\ contiguous (dc_abc "word") /\
  1 <= vocabulary_size (dc_abc "word") <= 2 ^ prec binary64 /\
  Forall (fun v => v <> NaN) [Fin (-2); Fin (3 # 10); Inf false; Fin 7] /\
  Forall (fun v => exists k,
            index binary64 (vocabulary_size (dc_abc "word")) v = Some k /\
            is_Some (int_to_data (dc_abc "word") !! k))
         [Fin (-2); Fin (3 # 10); Inf false; Fin 7] /\
  (exists Y_str,
     comprehension (getitem_float (int_to_data (dc_abc "word")))
       (map (quantize binary64 (vocabulary_size (dc_abc "word")))
            [Fin (-2); Fin (3 # 10); Inf false; Fin 7])
     = Ok Y_str) /\
  dataset_to_str sep128 binary64 (dc_abc "word")
    [Fin (-2); Fin (3 # 10); Inf false; Fin 7] <> Raise KeyError.
Proof.
  assert (Hn : 1 <= vocabulary_size (dc_abc "word") <= 2 ^ prec binary64)
    by (split; vm_compute; discriminate).
  assert (HY : Forall (fun v => v <> NaN) [Fin (-2); Fin (3 # 10); Inf false; Fin 7])
    by (repeat constructor; discriminate).
  split; [exact binary64_valid|].
  split; [exact (dc_abc_contiguous "word")|].
  split; [exact Hn|]. split; [exact HY|].
  exact (clamped_indices_are_keys sep128 binary64 (dc_abc "word") _
           binary64_valid (dc_abc_contiguous "word") Hn HY).
Defined.

(** The product of line 136 is rounded to the format before [np.around]
    sees it: the exact product of the binary64 value [below_half] with 3
    is above 1/2 and rounds to the integer 1, the binary64 product is 1/2
    and rounds to 0. *)
Lemma product_is_rounded_to_the_format :
  (1 # 2 < below_half * 3)%Q /\
  np_around (below_half * 3) = 1 /\
  round binary64 below_half = Fin below_half /\
  fmul binary64 (Fin below_half) (of_int binary64 3) = Fin (1 # 2) /\
  index binary64 3 (Fin below_half) = Some 0.
Proof. repeat split; vm_compute; reflexivity. Qed.

(** C4 (as stated).  In the instance built by [DatasetConversion('.',
    'word')] the vocabulary size is 0 and the negative value -1 is
    quantised to -1, not to 0. *)
Lemma empty_vocabulary_clamps_below_zero :
  __init__ "." "word" = Ok dc_word /\
  (-1 < 0)%Q /\
  index binary64 (vocabulary_size dc_word) (Fin (-1)) = Some (-1) /\
  index binary64 (vocabulary_size dc_word) (Fin (-1)) <> Some 0.
Proof.
  split; [reflexivity|]. split; [reflexivity|].
  split; [vm_compute; reflexivity|vm_compute; discriminate].
Qed.

(** C4 (amended).  For a vocabulary of n entries, n at most 2 ^ prec,
    [dataset_to_str] turns a finite prediction value v into an index as
    follows.  [np.around] gives the nearest integer and, of two nearest
    ones, the even one.  The product of v and n is the exact product
    rounded to the format of the array; the index is min(max(k, 0), n - 1)
    where k is [np.around] of that product (n - 1 or min(0, n - 1) if the
    product overflows).  For n >= 1 the index of every value but NaN lies
    in 0 .. n-1, it is 0 for every v < 0 and for the negative infinity,
    n - 1 for every v > n and for the positive infinity, and the two ends
    are reached at the values 0 and 1.  For n = 0 the index of every
    finite value is -1. *)
Theorem quantize_clamps_to_vocabulary fmt self (q : Q) :
  valid_format fmt -> vocabulary_size self <= 2 ^ prec fmt ->
  (forall x : Q,
     (Qabs (x - inject_Z (np_around x)) <= 1 # 2)%Q /\
     ((Qabs (x - inject_Z (np_around x)) == 1 # 2)%Q ->
      Z.even (np_around x) = true)) /\
  fmul fmt (Fin q) (of_int fmt (vocabulary_size self))
  = round fmt (q * inject_Z (vocabulary_size self)) /\
  match round fmt (q * inject_Z (vocabulary_size self)) with
  | Fin p =>
      index fmt (vocabulary_size self) (Fin q)
      = Some (Z.min (Z.max (np_around p) 0) (vocabulary_size self - 1))
  | Inf false =>
      index fmt (vocabulary_size self) (Fin q) = Some (vocabulary_size self - 1)
  | Inf true =>
      index fmt (vocabulary_size self) (Fin q)
      = Some (Z.min 0 (vocabulary_size self - 1))
  | NaN => False
  end /\
  (1 <= vocabulary_size self ->
   (forall v, v <> NaN ->
      exists k, index fmt (vocabulary_size self) v = Some k /\
                0 <= k <= vocabulary_size self - 1) /\
   ((q < 0)%Q -> index fmt (vocabulary_size self) (Fin q) = Some 0) /\
   ((inject_Z (vocabulary_size self) < q)%Q ->
    index fmt (vocabulary_size self) (Fin q) = Some (vocabulary_size self - 1)) /\
   index fmt (vocabulary_size self) (Inf true) = Some 0 /\
   index fmt (vocabulary_size self) (Inf false) = Some (vocabulary_size self - 1) /\
   index fmt (vocabulary_size self) (Fin 0) = Some 0 /\
   index fmt (vocabulary_size self) (Fin 1) = Some (vocabulary_size self - 1)) /\
  (vocabulary_size self = 0 ->
   index fmt (vocabulary_size self) (Fin q) = Some (-1)).
Proof.
  intros Hv Hle.
  assert (H0 : 0 <= vocabulary_size self) by (unfold vocabulary_size; lia).
  split.
  { intros x. split; [apply np_around_nearest|apply np_around_tie_even]. }
  split.
  { destruct (of_int_exact fmt (vocabulary_size self) Hv) as (qn & Hqn & Heq).
    - pose proof (Z.pow_nonneg 2 (prec fmt)). lia.
    - rewrite Hqn. cbn [fmul]. apply round_comp. by rewrite Heq. }
  split; [apply index_Fin; [done|lia]|].
  split.
  - intros Hn. assert (Hn' : 1 <= vocabulary_size self <= 2 ^ prec fmt) by lia.
    split; [intros v Hnan; by apply index_range|].
    split; [by apply index_negative|].
    split.
    { intros Hq. apply index_large; [done|done|].
      pose proof (inject_Z_ge_1 _ Hn). lra. }
    split; [exact (index_Inf fmt _ true Hv Hn')|].
    split; [exact (index_Inf fmt _ false Hv Hn')|].
    split.
    + pose proof (index_Fin fmt (vocabulary_size self) 0 Hv (conj H0 Hle)) as H.
      rewrite (round_zero fmt (0 * inject_Z (vocabulary_size self))) in H by ring.
      rewrite H. change (np_around 0) with 0. f_equal. lia.
    + apply index_large; [done|done|lra].
  - intros ->. by apply index_empty_vocabulary.
Qed.

Lemma quantize_clamps_to_vocabulary_witness :
  valid_format binary64 /\
  vocabulary_size (dc_abc "word") <= 2 ^ prec binary64 /\
  index binary64 (vocabulary_size (dc_abc "word")) (Fin (-2)) = Some 0.
Proof.
  assert (Hle : vocabulary_size (dc_abc "word") <= 2 ^ prec binary64)
    by (vm_compute; discriminate).
  split; [exact binary64_valid|]. split; [exact Hle|].
  destruct (quantize_clamps_to_vocabulary binary64 (dc_abc "word") (-2)
              binary64_valid Hle) as (_ & _ & _ & H & _).
  assert (H1 : 1 <= vocabulary_size (dc_abc "word")) by (vm_compute; discriminate).
  destruct (H H1) as (_ & Hneg & _). apply Hneg. reflexivity.
Defined.




(** * Further properties *)

(** ** Corpora without short files *)

Lemma example_count_timestep_matrix T m nin nout step :
  timestep_matrix T m -> nin + nout <= T -> 1 <= step ->
  example_count (shape1 m) nin nout step = (T - (nin + nout)) / step /\
  0 <= (T - (nin + nout)) / step.
Proof.
  intros Hm HT Hstep. unfold example_count.
  rewrite (shape1_timestep_matrix T) by done.
  replace (T - nin - nout) with (T - (nin + nout)) by lia.
  assert (0 <= (T - (nin + nout)) / step) by (apply Z.div_pos; lia). lia.
Qed.

Lemma length_windows_x step nin nout m :
  Z.of_nat (length (windows_x step nin nout m))
  = example_count (shape1 m) nin nout step.
Proof.
  unfold windows_x. rewrite length_map, length_range.
  unfold example_count. lia.
Qed.

Lemma length_windows_y step nin nout m :
  Z.of_nat (length (windows_y step nin nout m))
  = example_count (shape1 m) nin nout step.
Proof.
  unfold windows_y. rewrite length_map, length_range.
  unfold example_count. lia.
Qed.

Lemma length_flat_map_windows_x step nin nout (datasets : list matrix) :
  Z.of_nat (length (flat_map (windows_x step nin nout) datasets))
  = total_examples nin nout step datasets.
Proof.
  induction datasets as [|m datasets IH]; [reflexivity|].
  cbn [flat_map total_examples foldr]. rewrite length_app, Nat2Z.inj_add.
  rewrite length_windows_x. unfold total_examples in IH. lia.
Qed.

Lemma length_flat_map_windows_y step nin nout (datasets : list matrix) :
  Z.of_nat (length (flat_map (windows_y step nin nout) datasets))
  = total_examples nin nout step datasets.
Proof.
  induction datasets as [|m datasets IH]; [reflexivity|].
  cbn [flat_map total_examples foldr]. rewrite length_app, Nat2Z.inj_add.
  rewrite length_windows_y. unfold total_examples in IH. lia.
Qed.

Lemma long_enough_app nin nout (ds1 ds2 : list matrix) :
  long_enough nin nout (ds1 ++ ds2) <->
  long_enough nin nout ds1 /\ long_enough nin nout ds2.
Proof. apply Forall_app. Qed.

(** X1.  When every file is a 128-row matrix at least [input_size +
    output_size] wide, [txt_to_dataset] returns exactly the windows of the
    files, file after file in listing order and example after example
    within a file, and the two arrays have as many rows as the example
    counts of the files add up to; this holds however often the buffers
    were extended. *)
Theorem dataset_is_concatenation_of_windows
    self (datasets : list matrix) nin nout step :
  0 <= nin -> 0 <= nout -> 1 <= step -> long_enough nin nout datasets ->
  txt_to_dataset self datasets (Some nin) (Some nout) step
  = Ok (flat_map (windows_x step nin nout) datasets,
        flat_map (windows_y step nin nout) datasets) /\
  example_counts (txt_to_dataset self datasets (Some nin) (Some nout) step)
  = Ok (total_examples nin nout step datasets,
        total_examples nin nout step datasets).
Proof.
  intros Hin Hout Hstep Hall.
  rewrite (txt_to_dataset_exact self datasets nin nout step) by done.
  split; [reflexivity|]. unfold example_counts. cbn [mbind outcome_bind].
  by rewrite length_flat_map_windows_x, length_flat_map_windows_y.
Qed.

Lemma ramp_Z_timestep_matrix T : 0 <= T -> timestep_matrix T (ramp_Z T).
Proof.
  intros HT. unfold ramp_Z.
  rewrite <- (Z2Nat.id T) at 1 by done. apply ramp_timestep_matrix.
Qed.

Lemma long_enough_ramps (nin nout : Z) (widths : list Z) :
  Forall (fun T => 0 <= T /\ nin + nout <= T) widths ->
  long_enough nin nout (map ramp_Z widths).
Proof.
  intros H. unfold long_enough. apply Forall_fmap.
  eapply Forall_impl; [exact H|]. intros T [H0 HT]. cbv beta.
  exists T. split; [by apply ramp_Z_timestep_matrix|done].
Qed.

Lemma dataset_is_concatenation_of_windows_witness :
  0 <= 16 /\ 0 <= 1 /\ 1 <= 1 /\
  long_enough 16 1 (map ramp_Z [10020; 10020; 30]) /\
  txt_to_dataset dc_word (map ramp_Z [10020; 10020; 30]) (Some 16) (Some 1) 1
  = Ok (flat_map (windows_x 1 16 1) (map ramp_Z [10020; 10020; 30]),
        flat_map (windows_y 1 16 1) (map ramp_Z [10020; 10020; 30])) /\
  example_counts
    (txt_to_dataset dc_word (map ramp_Z [10020; 10020; 30]) (Some 16) (Some 1) 1)
  = Ok (total_examples 16 1 1 (map ramp_Z [10020; 10020; 30]),
        total_examples 16 1 1 (map ramp_Z [10020; 10020; 30])).
Proof.
  assert (H : long_enough 16 1 (map ramp_Z [10020; 10020; 30])).
  { apply long_enough_ramps. repeat constructor; lia. }
  split; [lia|]. split; [lia|]. split; [lia|]. split; [exact H|].
  apply (dataset_is_concatenation_of_windows dc_word
           (map ramp_Z [10020; 10020; 30]) 16 1 1); [lia | lia | lia | exact H].
Defined.

Lemma windows_x_shaped T m step nin nout :
  timestep_matrix T m -> 0 <= nin -> 0 <= nout -> 1 <= step -> nin + nout <= T ->
  all_shaped nin (windows_x step nin nout m).
Proof.
  intros Hm Hin Hout Hstep HT. unfold all_shaped, windows_x.
  destruct (example_count_timestep_matrix T m nin nout step Hm HT Hstep) as [-> _].
  apply Forall_fmap, Forall_forall. intros i Hi. apply elem_of_range in Hi.
  destruct (window_inside _ _ _ _ Hstep Hi) as [Hlo Hhi].
  unfold window_x. split; [rewrite length_slice_cols; apply Hm|].
  eapply Forall_impl; [eapply (slice_cols_rows T); [done|lia|lia]|].
  intros r Hr. cbv beta in *. lia.
Qed.

Lemma windows_y_shaped T m step nin nout :
  timestep_matrix T m -> 0 <= nin -> 0 <= nout -> 1 <= step -> nin + nout <= T ->
  all_shaped nout (windows_y step nin nout m).
Proof.
  intros Hm Hin Hout Hstep HT. unfold all_shaped, windows_y.
  destruct (example_count_timestep_matrix T m nin nout step Hm HT Hstep) as [-> _].
  apply Forall_fmap, Forall_forall. intros i Hi. apply elem_of_range in Hi.
  destruct (window_inside _ _ _ _ Hstep Hi) as [Hlo Hhi].
  unfold window_y. split; [rewrite length_slice_cols; apply Hm|].
  eapply Forall_impl; [eapply (slice_cols_rows T); [done|lia|lia]|].
  intros r Hr. cbv beta in *. lia.
Qed.

(** X2.  When every file is a 128-row matrix at least [input_size +
    output_size] wide, [txt_to_dataset] returns, and every example of [X]
    has the shape [(128, input_size)] and every example of [Y] the shape
    [(128, output_size)]. *)
Theorem dataset_examples_have_window_shape
    self (datasets : list matrix) nin nout step :
  0 <= nin -> 0 <= nout -> 1 <= step -> long_enough nin nout datasets ->
  exists X Y : tensor,
    txt_to_dataset self datasets (Some nin) (Some nout) step = Ok (X, Y) /\
    all_shaped nin X /\ all_shaped nout Y.
Proof.
  intros Hin Hout Hstep Hall. eexists _, _.
  split; [by apply txt_to_dataset_exact|].
  unfold all_shaped. split.
  - induction Hall as [|m datasets (T & Hm & HT) _ IH]; [constructor|].
    cbn [flat_map]. apply Forall_app. split; [|exact IH].
    by apply (windows_x_shaped T).
  - induction Hall as [|m datasets (T & Hm & HT) _ IH]; [constructor|].
    cbn [flat_map]. apply Forall_app. split; [|exact IH].
    by apply (windows_y_shaped T).
Qed.

Lemma dataset_examples_have_window_shape_witness :
  0 <= 4 /\ 0 <= 2 /\ 1 <= 3 /\ long_enough 4 2 (map ramp_Z [30; 6; 45]) /\
  exists X Y : tensor,
    txt_to_dataset dc_word (map ramp_Z [30; 6; 45]) (Some 4) (Some 2) 3 = Ok (X, Y) /\
    all_shaped 4 X /\ all_shaped 2 Y.
Proof.
  assert (H : long_enough 4 2 (map ramp_Z [30; 6; 45])).
  { apply long_enough_ramps. repeat constructor; lia. }
  split; [lia|]. split; [lia|]. split; [lia|]. split; [exact H|].
  apply (dataset_examples_have_window_shape dc_word (map ramp_Z [30; 6; 45]) 4 2 3);
    [lia | lia | lia | exact H].
Defined.

(** X3.  Over corpora without short files the dataset of a listing made of
    two parts is the dataset of the first part followed by the dataset of
    the second, for [X] and for [Y]. *)
Theorem dataset_of_appended_listings
    self (ds1 ds2 : list matrix) nin nout step :
  0 <= nin -> 0 <= nout -> 1 <= step ->
  long_enough nin nout ds1 -> long_enough nin nout ds2 ->
  exists X1 Y1 X2 Y2 : tensor,
    txt_to_dataset self ds1 (Some nin) (Some nout) step = Ok (X1, Y1) /\
    txt_to_dataset self ds2 (Some nin) (Some nout) step = Ok (X2, Y2) /\
    txt_to_dataset self (ds1 ++ ds2) (Some nin) (Some nout) step
    = Ok (X1 ++ X2, Y1 ++ Y2).
Proof.
  intros Hin Hout Hstep H1 H2. eexists _, _, _, _.
  split; [by apply txt_to_dataset_exact|].
  split; [by apply txt_to_dataset_exact|].
  rewrite txt_to_dataset_exact by (try done; by apply long_enough_app).
  by rewrite !flat_map_app.
Qed.

Lemma dataset_of_appended_listings_witness :
  0 <= 16 /\ 0 <= 1 /\ 1 <= 1 /\
  long_enough 16 1 (map ramp_Z [30; 40]) /\ long_enough 16 1 (map ramp_Z [17; 25]) /\
  exists X1 Y1 X2 Y2 : tensor,
    txt_to_dataset dc_word (map ramp_Z [30; 40]) (Some 16) (Some 1) 1 = Ok (X1, Y1) /\
    txt_to_dataset dc_word (map ramp_Z [17; 25]) (Some 16) (Some 1) 1 = Ok (X2, Y2) /\
    txt_to_dataset dc_word (map ramp_Z [30; 40] ++ map ramp_Z [17; 25])
      (Some 16) (Some 1) 1
    = Ok (X1 ++ X2, Y1 ++ Y2).
Proof.
  assert (H1 : long_enough 16 1 (map ramp_Z [30; 40])).
  { apply long_enough_ramps. repeat constructor; lia. }
  assert (H2 : long_enough 16 1 (map ramp_Z [17; 25])).
  { apply long_enough_ramps. repeat constructor; lia. }
  split; [lia|]. split; [lia|]. split; [lia|].
  split; [exact H1|]. split; [exact H2|].
  apply (dataset_of_appended_listings dc_word
           (map ramp_Z [30; 40]) (map ramp_Z [17; 25]) 16 1 1);
    [lia | lia | lia | exact H1 | exact H2].
Defined.

Lemma windows_of_narrow_file T m step nin nout :
  timestep_matrix T m -> 1 <= step -> nin + nout <= T < nin + nout + step ->
  windows_x step nin nout m = [] /\ windows_y step nin nout m = [].
Proof.
  intros Hm Hstep HT. unfold windows_x, windows_y.
  destruct (example_count_timestep_matrix T m nin nout step Hm) as [-> _]; [lia|lia|].
  rewrite Z.div_small by lia. done.
Qed.

(** X4.  A file that is at least [input_size + output_size] wide but less
    than [step] wider gives no example, although one window pair fits in
    it: among files that are wide enough, the dataset is the same with or
    without such a file.  In particular a file exactly [input_size +
    output_size] wide contributes nothing. *)
Theorem file_of_one_window_pair_gives_no_example
    self (pre post : list matrix) T (m : matrix) nin nout step :
  0 <= nin -> 0 <= nout -> 1 <= step ->
  long_enough nin nout pre -> long_enough nin nout post ->
  timestep_matrix T m -> nin + nout <= T < nin + nout + step ->
  txt_to_dataset self (pre ++ m :: post) (Some nin) (Some nout) step
  = txt_to_dataset self (pre ++ post) (Some nin) (Some nout) step.
Proof.
  intros Hin Hout Hstep Hpre Hpost Hm HT.
  destruct (windows_of_narrow_file T m step nin nout Hm Hstep HT) as [Hx Hy].
  rewrite !txt_to_dataset_exact; try done.
  - rewrite !flat_map_app. cbn [flat_map]. by rewrite Hx, Hy.
  - by apply long_enough_app.
  - apply long_enough_app. split; [done|]. constructor; [|done].
    exists T. split; [done|lia].
Qed.

Lemma file_of_one_window_pair_gives_no_example_witness :
  0 <= 16 /\ 0 <= 1 /\ 1 <= 1 /\
  long_enough 16 1 (map ramp_Z [30]) /\ long_enough 16 1 (map ramp_Z [40]) /\
  timestep_matrix 17 (ramp_Z 17) /\ 16 + 1 <= 17 < 16 + 1 + 1 /\
  txt_to_dataset dc_word (map ramp_Z [30] ++ ramp_Z 17 :: map ramp_Z [40])
    (Some 16) (Some 1) 1
  = txt_to_dataset dc_word (map ramp_Z [30] ++ map ramp_Z [40]) (Some 16) (Some 1) 1.
Proof.
  assert (H1 : long_enough 16 1 (map ramp_Z [30])).
  { apply long_enough_ramps. repeat constructor; lia. }
  assert (H2 : long_enough 16 1 (map ramp_Z [40])).
  { apply long_enough_ramps. repeat constructor; lia. }
  assert (H3 : timestep_matrix 17 (ramp_Z 17)) by (apply ramp_Z_timestep_matrix; lia).
  split; [lia|]. split; [lia|]. split; [lia|].
  split; [exact H1|]. split; [exact H2|]. split; [exact H3|]. split; [lia|].
  apply (file_of_one_window_pair_gives_no_example dc_word
           (map ramp_Z [30]) (map ramp_Z [40]) 17 (ramp_Z 17) 16 1 1);
    [lia | lia | lia | exact H1 | exact H2 | exact H3 | lia].
Defined.

(** ** Runs over arbitrary corpora *)

Lemma bind_Ok {A B} (m : outcome A) (k : A -> outcome B) (r : B) :
  (x ← m; k x) = Ok r -> exists a, m = Ok a /\ k a = Ok r.
Proof. destruct m as [a| |]; [|discriminate..]. intros H. by exists a. Qed.

Lemma np_zeros_length k n (Z0 : tensor) :
  np_zeros k n = Ok Z0 -> length Z0 = Z.to_nat k.
Proof.
  unfold np_zeros. destruct (_ || _); [discriminate|].
  intros [= <-]. apply repeat_length.
Qed.

Lemma py_index_bounds len k i :
  py_index len k = Ok i -> (i < Z.to_nat len)%nat /\ k + 1 <= len.
Proof.
  unfold py_index. destruct (Z.ltb_spec k 0).
  - destruct (Z.leb_spec 0 (k + len)), (Z.ltb_spec (k + len) len);
      cbn [andb]; intros [= <-]; lia.
  - destruct (Z.leb_spec 0 k), (Z.ltb_spec k len);
      cbn [andb]; intros [= <-]; lia.
Qed.

Lemma setitem_length (X X' : tensor) k v :
  setitem X k v = Ok X' ->
  length X' = length X /\ k + 1 <= Z.of_nat (length X).
Proof.
  unfold setitem. intros H.
  apply bind_Ok in H as (i & Hi & H). apply bind_Ok in H as (v' & _ & H).
  injection H as <-. rewrite length_insert.
  apply py_index_bounds in Hi. lia.
Qed.

Lemma grow_lengths nin nout k b b' :
  grow nin nout k b = Ok b' ->
  length (buf_X b) = length (buf_Y b) ->
  length (buf_X b') = length (buf_Y b') /\
  (length (buf_X b) <= length (buf_X b'))%nat.
Proof.
  unfold grow. destruct (_ >=? _).
  - intros H Hlen. apply bind_Ok in H as (zx & Hzx & H).
    apply bind_Ok in H as (zy & Hzy & H). injection H as <-.
    cbn [buf_X buf_Y]. rewrite !length_app.
    rewrite (np_zeros_length _ _ _ Hzx), (np_zeros_length _ _ _ Hzy). lia.
  - intros [= <-] Hlen. lia.
Qed.

Lemma example_body_lengths dataset step nin nout total start b idx b' :
  example_body dataset step nin nout total start b idx = Ok b' ->
  length (buf_X b) = length (buf_Y b) ->
  length (buf_X b') = length (buf_Y b') /\
  (length (buf_X b) <= length (buf_X b'))%nat /\
  start + idx + 1 <= Z.of_nat (length (buf_X b')).
Proof.
  unfold example_body. intros H Hlen.
  apply bind_Ok in H as (x & _ & H). apply bind_Ok in H as (y & _ & H).
  apply bind_Ok in H as (b1 & Hg & H). apply bind_Ok in H as (X & HX & H).
  apply bind_Ok in H as (Y & HY & H). injection H as <-. cbn [buf_X buf_Y].
  destruct (grow_lengths _ _ _ _ _ Hg Hlen) as [H1 H2].
  apply setitem_length in HX as [HX1 HX2]. apply setitem_length in HY as [HY1 _].
  lia.
Qed.

Lemma inner_loop_lengths dataset step nin nout total start (k : nat) :
  forall (i0 : nat) b b',
    for_each (example_body dataset step nin nout total start)
             (map Z.of_nat (seq i0 k)) b = Ok b' ->
    length (buf_X b) = length (buf_Y b) ->
    start + Z.of_nat i0 <= Z.of_nat (length (buf_X b)) ->
    length (buf_X b') = length (buf_Y b') /\
    (length (buf_X b) <= length (buf_X b'))%nat /\
    start + Z.of_nat (i0 + k) <= Z.of_nat (length (buf_X b')).
Proof.
  induction k as [|k IH]; intros i0 b b' H Hlen Hpos.
  - injection H as <-. rewrite Nat.add_0_r. lia.
  - cbn [seq map for_each] in H. apply bind_Ok in H as (b1 & Hb1 & H).
    apply example_body_lengths in Hb1 as (H1 & H2 & H3); [|done].
    apply IH in H as (H4 & H5 & H6); [|done|lia]. lia.
Qed.

Lemma file_body_index step nin nout total b s dataset b' s' :
  file_body step nin nout total (b, s) dataset = Ok (b', s') ->
  length (buf_X b) = length (buf_Y b) ->
  s <= Z.of_nat (length (buf_X b)) ->
  s' = s + (shape1 dataset - total) / step /\
  length (buf_X b') = length (buf_Y b') /\
  (length (buf_X b) <= length (buf_X b'))%nat /\
  s' <= Z.of_nat (length (buf_X b')).
Proof.
  unfold file_body, num_examples, floordiv. intros H Hlen Hs.
  destruct (step =? 0); [discriminate|]. cbn [mbind outcome_bind] in H.
  apply bind_Ok in H as (b1 & Hloop & H). injection H as <- <-.
  split; [reflexivity|]. unfold range in Hloop.
  apply inner_loop_lengths in Hloop as (H1 & H2 & H3); [|done|lia].
  split; [done|]. split; [done|].
  destruct (Z.le_gt_cases 0 ((shape1 dataset - total) / step)); lia.
Qed.

Lemma file_loop_index step nin nout total (datasets : list matrix) :
  forall b s b' s',
    for_each (file_body step nin nout total) datasets (b, s) = Ok (b', s') ->
    length (buf_X b) = length (buf_Y b) ->
    s <= Z.of_nat (length (buf_X b)) ->
    s' = s + signed_total total step datasets /\
    length (buf_X b') = length (buf_Y b') /\
    (length (buf_X b) <= length (buf_X b'))%nat /\
    s' <= Z.of_nat (length (buf_X b')).
Proof.
  induction datasets as [|m datasets IH]; intros b s b' s' H Hlen Hs.
  - injection H as <- <-. unfold signed_total. cbn [foldr]. lia.
  - cbn [for_each] in H. apply bind_Ok in H as ([b1 s1] & H1 & H).
    apply file_body_index in H1 as (-> & H2 & H3 & H4); [|done..].
    apply IH in H as (-> & H5 & H6 & H7); [|done..].
    unfold signed_total in *. cbn [foldr]. lia.
Qed.

(** What a returning call of [txt_to_dataset] has computed. *)
Lemma txt_to_dataset_returns self (datasets : list matrix) iw ow step X Y :
  txt_to_dataset self datasets iw ow step = Ok (X, Y) ->
  exists nout b,
    num_output_size iw ow = Some nout /\
    length (buf_X b) = length (buf_Y b) /\
    signed_total (num_input_size iw + nout) step datasets
      <= Z.of_nat (length (buf_X b)) /\
    X = py_slice_to (signed_total (num_input_size iw + nout) step datasets) (buf_X b) /\
    Y = py_slice_to (signed_total (num_input_size iw + nout) step datasets) (buf_Y b).
Proof.
  unfold txt_to_dataset. intros H.
  destruct (num_output_size iw ow) as [nout|]; [|discriminate].
  cbn [add_int mbind outcome_bind from_option id] in H.
  apply bind_Ok in H as (X0 & HX0 & H). apply bind_Ok in H as (Y0 & HY0 & H).
  apply bind_Ok in H as ([b n] & Hloop & H). injection H as <- <-.
  apply np_zeros_length in HX0, HY0.
  apply file_loop_index in Hloop as (-> & H1 & H2 & H3);
    cbn [buf_X buf_Y] in *; [|lia..].
  exists nout, b. rewrite Z.add_0_l in *. repeat split; done.
Qed.

Lemma length_py_slice_to {A} n (l : list A) :
  0 <= n <= Z.of_nat (length l) -> Z.of_nat (length (py_slice_to n l)) = n.
Proof.
  intros Hn. unfold py_slice_to. rewrite length_py_slice_inside; lia.
Qed.

(** X5.  Whatever the corpus, the window sizes and the step, when
    [txt_to_dataset] returns, [X] and [Y] have the same number of
    examples. *)
Theorem dataset_arrays_have_equal_length
    self (datasets : list matrix) iw ow step (X Y : tensor) :
  txt_to_dataset self datasets iw ow step = Ok (X, Y) -> length X = length Y.
Proof.
  intros H. apply txt_to_dataset_returns in H
    as (nout & b & _ & Hlen & _ & -> & ->).
  unfold py_slice_to, py_slice. by rewrite !length_take, !length_drop, Hlen.
Qed.

(** X6.  When [txt_to_dataset] returns and the per-file values
    [(T - input_size - output_size) // step] of line 97, negative ones
    included, add up to a number that is not negative, the returned arrays
    have exactly that many rows: every file narrower than one window pair
    takes rows away from the result. *)
Theorem dataset_length_is_signed_sum
    self (datasets : list matrix) iw ow step nout (X Y : tensor) :
  txt_to_dataset self datasets iw ow step = Ok (X, Y) ->
  num_output_size iw ow = Some nout ->
  0 <= signed_total (num_input_size iw + nout) step datasets ->
  Z.of_nat (length X) = signed_total (num_input_size iw + nout) step datasets /\
  Z.of_nat (length Y) = signed_total (num_input_size iw + nout) step datasets.
Proof.
  intros H Hout Hsum. apply txt_to_dataset_returns in H
    as (nout' & b & Hout' & Hlen & Hle & -> & ->).
  rewrite Hout in Hout'. injection Hout' as <-.
  split; apply length_py_slice_to; lia.
Qed.

Lemma dataset_arrays_have_equal_length_witness :
  txt_to_dataset dc_word [ramp 30; ramp 10] None None 1
  = Ok (dataset_X (txt_to_dataset dc_word [ramp 30; ramp 10] None None 1),
        dataset_Y (txt_to_dataset dc_word [ramp 30; ramp 10] None None 1)) /\
  length (dataset_X (txt_to_dataset dc_word [ramp 30; ramp 10] None None 1))
  = length (dataset_Y (txt_to_dataset dc_word [ramp 30; ramp 10] None None 1)).
Proof.
  split; [vm_compute; reflexivity|].
  apply (dataset_arrays_have_equal_length dc_word [ramp 30; ramp 10] None None 1).
  vm_compute; reflexivity.
Defined.

Lemma dataset_length_is_signed_sum_witness :
  txt_to_dataset dc_word [ramp 30; ramp 10; ramp 25] None None 1
  = Ok (dataset_X (txt_to_dataset dc_word [ramp 30; ramp 10; ramp 25] None None 1),
        dataset_Y (txt_to_dataset dc_word [ramp 30; ramp 10; ramp 25] None None 1)) /\
  num_output_size None None = Some 1 /\
  0 <= signed_total (num_input_size None + 1) 1 [ramp 30; ramp 10; ramp 25] /\
  Z.of_nat (length (dataset_X
     (txt_to_dataset dc_word [ramp 30; ramp 10; ramp 25] None None 1)))
  = signed_total (num_input_size None + 1) 1 [ramp 30; ramp 10; ramp 25] /\
  Z.of_nat (length (dataset_Y
     (txt_to_dataset dc_word [ramp 30; ramp 10; ramp 25] None None 1)))
  = signed_total (num_input_size None + 1) 1 [ramp 30; ramp 10; ramp 25].
Proof.
  split; [vm_compute; reflexivity|]. split; [reflexivity|].
  split; [vm_compute; discriminate|].
  apply (dataset_length_is_signed_sum dc_word [ramp 30; ramp 10; ramp 25]
           None None 1 1);
    [vm_compute; reflexivity | reflexivity | vm_compute; discriminate].
Defined.

(** ** Rejected arguments and files *)

Lemma zero_step_raises self (m : matrix) (rest : list matrix) iw ow nout :
  num_output_size iw ow = Some nout -> 0 <= num_input_size iw -> 0 <= nout ->
  txt_to_dataset self (m :: rest) iw ow 0 = Raise ZeroDivisionError.
Proof.
  intros Hout Hin Hnout. unfold txt_to_dataset. rewrite Hout.
  cbn [add_int mbind outcome_bind from_option id].
  rewrite !np_zeros_ok by lia. reflexivity.
Qed.

(** X7.  A step of 0 makes line 97 divide by zero.  With window sizes that
    resolve to non-negative integers, when the listing has at least one
    text file and the first one is read and parsed, [txt_to_dataset]
    raises [ZeroDivisionError] at that file, whatever its matrix is; the
    files after it are not opened, and the instance is left as it was. *)
Theorem zero_step_raises_on_first_file
    (get_files_by_ext : string -> list string -> outcome (list string))
    (str_to_np : string -> outcome matrix)
    (path_join : string -> string -> string)
    (read_text : string -> outcome string)
    self (file : string) (rest : list string) (data : string) (m : matrix)
    iw ow nout :
  get_files_by_ext (dir_path self) TXT_EXTS = Ok (file :: rest) ->
  read_text (path_join (dir_path self) file) = Ok data ->
  str_to_np data = Ok m ->
  num_output_size iw ow = Some nout -> 0 <= num_input_size iw -> 0 <= nout ->
  txt_to_dataset_method get_files_by_ext str_to_np path_join read_text
    iw ow 0 self
  = (Raise ZeroDivisionError, self) /\
  (forall datasets : list matrix,
     txt_to_dataset self (m :: datasets) iw ow 0 = Raise ZeroDivisionError).
Proof.
  intros Hfiles Hread Hparse Hout Hin Hnout.
  split; [|intros datasets; by apply (zero_step_raises _ _ _ _ _ nout)].
  unfold txt_to_dataset_method.
  rewrite bind_attribute, bind_local, Hfiles, bind_local, Hout.
  cbn [add_int from_option id]. rewrite bind_local.
  rewrite (np_zeros_ok 10000 (num_input_size iw)) by lia. rewrite bind_local.
  rewrite (np_zeros_ok 10000 nout) by lia.
  cbn [for_each_method].
  rewrite (bind_run _ _ (Raise ZeroDivisionError)); [reflexivity|].
  rewrite (bind_run _ _ (Raise ZeroDivisionError)); [reflexivity|].
  rewrite bind_attribute, bind_local, Hread, bind_local, Hparse. reflexivity.
Qed.

Lemma zero_step_raises_on_first_file_witness :
  two_texts (dir_path dc_word) TXT_EXTS = Ok ["a.txt"; "b.txt"] /\
  path_as_text (join_slash (dir_path dc_word) "a.txt") = Ok "./a.txt" /\
  parse_ramps "./a.txt" = Ok (ramp 30) /\
  num_output_size (Some 4) (Some 2) = Some 2 /\ 0 <= num_input_size (Some 4) /\
  0 <= 2 /\
  txt_to_dataset_method two_texts parse_ramps join_slash path_as_text
    (Some 4) (Some 2) 0 dc_word
  = (Raise ZeroDivisionError, dc_word) /\
  (forall datasets : list matrix,
     txt_to_dataset dc_word (ramp 30 :: datasets) (Some 4) (Some 2) 0
     = Raise ZeroDivisionError).
Proof.
  assert (H4 : 0 <= num_input_size (Some 4)) by (vm_compute; discriminate).
  assert (H2 : 0 <= 2) by lia.
  split; [reflexivity|]. split; [reflexivity|]. split; [reflexivity|].
  split; [reflexivity|]. split; [exact H4|]. split; [exact H2|].
  exact (zero_step_raises_on_first_file two_texts parse_ramps join_slash
           path_as_text dc_word "a.txt" ["b.txt"] "./a.txt" (ramp 30)
           (Some 4) (Some 2) 2 eq_refl eq_refl eq_refl eq_refl H4 H2).
Defined.




Lemma for_each_app {S I} (body : S -> I -> outcome S) (l1 l2 : list I) (s : S) :
  for_each body (l1 ++ l2) s = (s' ← for_each body l1 s; for_each body l2 s').
Proof.
  revert s. induction l1 as [|i l1 IH]; intros s; [reflexivity|].
  cbn [app for_each]. destruct (body s i); [apply IH|reflexivity..].
Qed.

Lemma slice_cols_rows_rect r T a b m :
  rectangular r T m -> 0 <= a <= b -> b <= T ->
  Forall (fun row => Z.of_nat (length row) = b - a) (slice_cols a b m).
Proof.
  intros [_ Hrows] Hab Hb. unfold slice_cols. apply Forall_fmap.
  eapply Forall_impl; [exact Hrows|]. intros row Hr. cbv beta in *.
  apply length_py_slice_inside; lia.
Qed.

Lemma broadcast_rows_mismatch (v : matrix) :
  (2 <= length v)%nat -> length v <> NOTES -> broadcast_rows v = Raise ValueError.
Proof.
  intros H2 Hne. unfold broadcast_rows.
  destruct (Nat.eqb_spec (length v) NOTES); [done|].
  destruct v as [|r1 [|r2 v]]; simpl in H2; try lia; reflexivity.
Qed.

Lemma setitem_mismatch (X : tensor) k (v : matrix) :
  (2 <= length v)%nat -> length v <> NOTES -> 0 <= k < Z.of_nat (length X) ->
  setitem X k v = Raise ValueError.
Proof.
  intros H2 Hne Hk. unfold setitem, py_index.
  destruct (Z.ltb_spec k 0); [lia|].
  destruct (Z.leb_spec 0 k); [|lia].
  destruct (Z.ltb_spec k (Z.of_nat (length X))); [|lia].
  cbn [andb mbind outcome_bind]. by rewrite broadcast_rows_mismatch.
Qed.

(** X9.  The buffers have 128 rows per example.  After any number of files
    that are 128-row matrices wide enough, a file that is a rectangular
    matrix of another number of rows (at least 2) from which at least one
    example is drawn makes [txt_to_dataset] raise [ValueError] on its
    first example. *)
Theorem wrong_row_count_raises
    self (pre rest : list matrix) (r : nat) T (m : matrix) nin nout step :
  0 <= nin -> 0 <= nout -> 1 <= step -> long_enough nin nout pre ->
  rectangular r T m -> (2 <= r)%nat -> r <> NOTES -> nin + nout + step <= T ->
  txt_to_dataset self (pre ++ m :: rest) (Some nin) (Some nout) step
  = Raise ValueError.
Proof.
  intros Hin Hout Hstep Hpre Hm Hr2 Hr HT. unfold txt_to_dataset.
  cbn [num_input_size num_output_size add_int mbind outcome_bind from_option id].
  rewrite !np_zeros_ok by lia. cbn [mbind outcome_bind].
  rewrite for_each_app.
  destruct (file_loop_appends step nin nout pre Hin Hout Hstep Hpre
              (mkBuf (repeat (np_zeros_row nin) (Z.to_nat 10000))
                     (repeat (np_zeros_row nout) (Z.to_nat 10000)) 10000)
              [] [])
    as (b & Hloop & Hb).
  { eexists _, _. cbn [buf_X buf_Y extend_sz app].
    split; [reflexivity|]. split; [reflexivity|].
    rewrite !repeat_length. repeat split. }
  cbn [length app] in Hloop, Hb. change (Z.of_nat 0) with 0 in Hloop.
  rewrite Hloop. cbn [mbind outcome_bind for_each].
  assert (Hs1 : shape1 m = T).
  { destruct Hm as [Hlen Hrows]. destruct m as [|row m]; [simpl in Hlen; lia|].
    by inversion Hrows. }
  unfold file_body, num_examples, floordiv. rewrite Hs1.
  destruct (Z.eqb_spec step 0); [lia|]. cbn [mbind outcome_bind].
  assert (Hn : 1 <= (T - (nin + nout)) / step).
  { apply Z.div_le_lower_bound; lia. }
  unfold range.
  destruct (Z.to_nat ((T - (nin + nout)) / step)) as [|k] eqn:Hk; [lia|].
  cbn [seq map for_each]. change (Z.of_nat 0) with 0.
  assert (Hw : 0 <= 0 < (T - (nin + nout)) / step) by lia.
  destruct (window_inside _ _ _ _ Hstep Hw) as [Hlo Hhi].
  unfold example_body, input_x, output_y.
  rewrite reshape_1_ok.
  2:{ eapply Forall_impl; [eapply (slice_cols_rows_rect r T); [done|lia|lia]|].
      intros row Hrow. cbv beta in *. lia. }
  cbn [mbind outcome_bind]. rewrite reshape_1_ok.
  2:{ eapply Forall_impl; [eapply (slice_cols_rows_rect r T); [done|lia|lia]|].
      intros row Hrow. cbv beta in *. lia. }
  cbn [mbind outcome_bind]. rewrite Z.add_0_r.
  destruct (grow_keeps nin nout b _ _ Hin Hout Hb)
    as (b' & p & px & q & py & Hg & HX & HY & _).
  rewrite Hg. cbn [mbind outcome_bind]. rewrite HX.
  rewrite (setitem_mismatch _ _ (slice_cols (0 * step) (0 * step + nin) m));
    [reflexivity|..].
  - rewrite length_slice_cols. by destruct Hm as [-> _].
  - rewrite length_slice_cols. by destruct Hm as [-> _].
  - rewrite length_app. cbn [length]. lia.
Qed.

Lemma two_rows_rectangular (T : nat) : rectangular 2 (Z.of_nat T) (two_rows T).
Proof.
  unfold rectangular, two_rows. split; [reflexivity|].
  repeat constructor; by rewrite length_map, length_seq.
Qed.

Lemma wrong_row_count_raises_witness :
  0 <= 16 /\ 0 <= 1 /\ 1 <= 1 /\ long_enough 16 1 (map ramp_Z [30]) /\
  rectangular 2 (Z.of_nat 40) (two_rows 40) /\ (2 <= 2)%nat /\ 2%nat <> NOTES /\
  16 + 1 + 1 <= Z.of_nat 40 /\
  txt_to_dataset dc_word (map ramp_Z [30] ++ two_rows 40 :: [ramp 30])
    (Some 16) (Some 1) 1
  = Raise ValueError.
Proof.
  assert (H1 : long_enough 16 1 (map ramp_Z [30])).
  { apply long_enough_ramps. repeat constructor; lia. }
  split; [lia|]. split; [lia|]. split; [lia|]. split; [exact H1|].
  split; [exact (two_rows_rectangular 40)|]. split; [lia|].
  split; [discriminate|]. split; [lia|].
  apply (wrong_row_count_raises dc_word (map ramp_Z [30]) [ramp 30] 2
           (Z.of_nat 40) (two_rows 40) 16 1 1);
    [lia | lia | lia | exact H1 | exact (two_rows_rectangular 40)
    | lia | discriminate | lia].
Defined.

(** X10.  Every example of a file ends at least [step] columns before the
    end of the file: for every index [i] of the inner loop the output
    window stops at or before column [T - step], so the last [step]
    columns of a file are in no example. *)
Theorem last_columns_are_in_no_example T nin nout step n i :
  1 <= step -> num_examples T (nin + nout) step = Ok n -> i ∈ range n ->
  0 <= i * step /\ i * step + nin + nout <= T - step.
Proof.
  intros Hstep Hn Hi. unfold num_examples, floordiv in Hn.
  destruct (step =? 0); [discriminate|]. injection Hn as <-.
  apply elem_of_range in Hi.
  destruct (window_inside _ _ _ _ Hstep Hi). lia.
Qed.

Lemma last_columns_are_in_no_example_witness :
  1 <= 3 /\ num_examples 30 (4 + 2) 3 = Ok 8 /\ 7 ∈ range 8 /\
  0 <= 7 * 3 /\ 7 * 3 + 4 + 2 <= 30 - 3.
Proof.
  assert (H : 7 ∈ range 8) by (apply elem_of_range; lia).
  split; [lia|]. split; [reflexivity|]. split; [exact H|].
  apply (last_columns_are_in_no_example 30 4 2 3 8 7); [lia | reflexivity | exact H].
Defined.

(** ** Sessions *)

Lemma reachable_fresh
    sep_char get_files_by_ext midi_to_txt_file str_to_np arr_to_midi
    path_join read_text self :
  reachable sep_char get_files_by_ext midi_to_txt_file str_to_np arr_to_midi
    path_join read_text self ->
  exists directory_path sep,
    (sep = "word" \/ sep = "char") /\
    self = {| data_to_int := ∅; int_to_data := ∅;
              dir_path := directory_path; sep_by_type := sep |}.
Proof.
  induction 1 as [directory_path sep self Hinit | self c _ IH].
  - unfold __init__ in Hinit. case_bool_decide as Hsep; [|discriminate].
    injection Hinit as <-. exists directory_path, sep. split; [|done].
    rewrite !elem_of_cons, elem_of_nil in Hsep. tauto.
  - by rewrite perform_readonly.
Qed.

(** X11.  No statement of a method body assigns an attribute of the
    instance or stores into one of its dictionaries: a call leaves the
    instance it runs on as it found it, whether it returns or raises; so
    every instance a session holds is the one the constructor built: the
    directory and the mode ['word'] or ['char'] given at construction, and
    two empty dictionaries. *)
Theorem session_instance_is_as_constructed
    sep_char get_files_by_ext midi_to_txt_file str_to_np arr_to_midi
    path_join read_text self :
  reachable sep_char get_files_by_ext midi_to_txt_file str_to_np arr_to_midi
    path_join read_text self ->
  (exists directory_path sep,
     (sep = "word" \/ sep = "char") /\
     __init__ directory_path sep = Ok self) /\
  (forall c,
     snd (perform sep_char get_files_by_ext midi_to_txt_file str_to_np
            arr_to_midi path_join read_text self c) = self).
Proof.
  intros Hr. split.
  - destruct (reachable_fresh _ _ _ _ _ _ _ _ Hr) as (d & sep & Hsep & ->).
    exists d, sep. split; [done|].
    by destruct Hsep as [-> | ->].
  - intros c. apply perform_readonly.
Qed.

Lemma session_instance_is_as_constructed_witness :
  reachable sep128 no_files no_export no_parse no_write join_slash no_text
    (snd (perform sep128 no_files no_export no_parse no_write join_slash no_text
            dc_word (Call_str_to_midi "abc" None))) /\
  (exists directory_path sep,
     (sep = "word" \/ sep = "char") /\
     __init__ directory_path sep
     = Ok (snd (perform sep128 no_files no_export no_parse no_write join_slash
                  no_text dc_word (Call_str_to_midi "abc" None)))) /\
  (forall c,
     snd (perform sep128 no_files no_export no_parse no_write join_slash no_text
            (snd (perform sep128 no_files no_export no_parse no_write join_slash
                    no_text dc_word (Call_str_to_midi "abc" None))) c)
     = snd (perform sep128 no_files no_export no_parse no_write join_slash no_text
              dc_word (Call_str_to_midi "abc" None))).
Proof.
  assert (Hr : reachable sep128 no_files no_export no_parse no_write join_slash
    no_text
    (snd (perform sep128 no_files no_export no_parse no_write join_slash no_text
            dc_word (Call_str_to_midi "abc" None)))).
  { apply reachable_call. apply (reachable_init _ _ _ _ _ _ _ "." "word").
    reflexivity. }
  split; [exact Hr|].
  exact (session_instance_is_as_constructed _ _ _ _ _ _ _ _ Hr).
Defined.

(** ** The decoder *)

Lemma lookup_float_empty x : lookup_float ∅ x = None.
Proof.
  unfold lookup_float. destruct (key_of x); [apply lookup_empty|reflexivity].
Qed.

(** X12.  On every instance a session holds the vocabulary is empty, so
    [dataset_to_str] returns the empty string for an empty array and raises
    [KeyError] for every array with at least one entry, whatever the
    values and the format of the array. *)
Theorem dataset_to_str_of_session
    sep_char get_files_by_ext midi_to_txt_file str_to_np arr_to_midi
    path_join read_text fmt self (Y : list npfloat) :
  reachable sep_char get_files_by_ext midi_to_txt_file str_to_np arr_to_midi
    path_join read_text self ->
  dataset_to_str sep_char fmt self Y
  = match Y with [] => Ok EmptyString | _ :: _ => Raise KeyError end.
Proof.
  intros Hr.
  destruct (reachable_fresh _ _ _ _ _ _ _ _ Hr) as (d & sep & Hsep & ->).
  unfold dataset_to_str. destruct Y as [|v Y].
  - cbn [map comprehension mbind outcome_bind sep_by_type].
    destruct Hsep as [-> | ->]; reflexivity.
  - rewrite comprehension_getitem_float_missing; [reflexivity|].
    apply Exists_cons_hd. apply lookup_float_empty.
Qed.

Lemma dataset_to_str_of_session_witness :
  reachable sep128 no_files no_export no_parse no_write join_slash no_text
    (snd (perform sep128 no_files no_export no_parse no_write join_slash no_text
            dc_word (Call_txt_to_dataset None None 1))) /\
  dataset_to_str sep128 binary64
    (snd (perform sep128 no_files no_export no_parse no_write join_slash no_text
            dc_word (Call_txt_to_dataset None None 1)))
    [Fin (3 # 10); Fin (-4); Fin (2 # 3)]
  = Raise KeyError.
Proof.
  assert (Hr : reachable sep128 no_files no_export no_parse no_write join_slash
    no_text
    (snd (perform sep128 no_files no_export no_parse no_write join_slash no_text
            dc_word (Call_txt_to_dataset None None 1)))).
  { apply reachable_call. apply (reachable_init _ _ _ _ _ _ _ "." "word").
    reflexivity. }
  split; [exact Hr|].
  exact (dataset_to_str_of_session _ _ _ _ _ _ _ binary64 _
           [Fin (3 # 10); Fin (-4); Fin (2 # 3)] Hr).
Defined.

(** X13.  Decoding preserves order: for every vocabulary and every format,
    a larger prediction value is never mapped to a smaller index by the
    scale, round and clamp steps of [dataset_to_str]; the quantised values
    are ordered as the prediction values are, and for a vocabulary of 1 to
    2 ^ prec entries both values have an index. *)
Theorem quantize_is_monotone fmt self (v1 v2 : npfloat) :
  1 <= prec fmt -> fleb v1 v2 = true ->
  (forall k1 k2,
     index fmt (vocabulary_size self) v1 = Some k1 ->
     index fmt (vocabulary_size self) v2 = Some k2 -> k1 <= k2) /\
  (quantize fmt (vocabulary_size self) v1 <> NaN ->
   quantize fmt (vocabulary_size self) v2 <> NaN ->
   fleb (quantize fmt (vocabulary_size self) v1)
        (quantize fmt (vocabulary_size self) v2) = true) /\
  (valid_format fmt -> 1 <= vocabulary_size self <= 2 ^ prec fmt ->
   exists k1 k2,
     index fmt (vocabulary_size self) v1 = Some k1 /\
     index fmt (vocabulary_size self) v2 = Some k2 /\ k1 <= k2).
Proof.
  intros Hp Hle.
  assert (H0 : 0 <= vocabulary_size self) by (unfold vocabulary_size; lia).
  assert (Hmono : forall k1 k2,
     index fmt (vocabulary_size self) v1 = Some k1 ->
     index fmt (vocabulary_size self) v2 = Some k2 -> k1 <= k2).
  { intros k1 k2. by apply index_mono. }
  split; [exact Hmono|]. split; [by apply quantize_mono|].
  intros Hv Hn. destruct (fleb_not_nan _ _ Hle) as [Hn1 Hn2].
  destruct (index_range fmt _ v1 Hv Hn Hn1) as (k1 & Hk1 & _).
  destruct (index_range fmt _ v2 Hv Hn Hn2) as (k2 & Hk2 & _).
  exists k1, k2. split; [done|]. split; [done|]. by apply Hmono.
Qed.

Lemma quantize_is_monotone_witness :
  1 <= prec binary64 /\ fleb (Fin (1 # 3)) (Fin (1 # 2)) = true /\
  exists k1 k2,
    index binary64 (vocabulary_size (dc_abc "word")) (Fin (1 # 3)) = Some k1 /\
    index binary64 (vocabulary_size (dc_abc "word")) (Fin (1 # 2)) = Some k2 /\
    k1 <= k2.
Proof.
  assert (Hp : 1 <= prec binary64) by (vm_compute; discriminate).
  assert (Hle : fleb (Fin (1 # 3)) (Fin (1 # 2)) = true) by reflexivity.
  split; [exact Hp|]. split; [exact Hle|].
  destruct (quantize_is_monotone binary64 (dc_abc "word") _ _ Hp Hle)
    as (_ & _ & H).
  apply H; [exact binary64_valid|]. split; vm_compute; discriminate.
Defined.

(** X14.  [dataset_to_str] raises [KeyError] exactly when some entry,
    after scaling, rounding and clamping, equals no key of [int_to_data];
    a missing index is never replaced by a default symbol. *)
Theorem dataset_to_str_key_error sep_char fmt self (Y : list npfloat) :
  dataset_to_str sep_char fmt self Y = Raise KeyError <->
  Exists (fun v => lookup_float (int_to_data self)
                     (quantize fmt (vocabulary_size self) v) = None) Y.
Proof.
  split.
  - intros H. unfold dataset_to_str in H.
    destruct (comprehension_getitem_float_cases (int_to_data self)
                (map (quantize fmt (vocabulary_size self)) Y))
      as [[vals Hv]|[_ Hex]].
    + rewrite Hv in H. cbn [mbind outcome_bind] in H.
      repeat case_bool_decide; discriminate.
    + by apply Exists_fmap in Hex.
  - intros H. unfold dataset_to_str.
    rewrite comprehension_getitem_float_missing; [reflexivity|].
    by apply Exists_fmap.
Qed.

Lemma split_on_no_separator c s : ~ occurs c s -> split_on c s = [s].
Proof.
  induction s as [|a s IH]; intros Hs; [reflexivity|].
  cbn [occurs] in Hs. cbn [split_on].
  destruct (Ascii.eqb_spec a c) as [->|Hne]; [tauto|].
  rewrite IH by tauto. reflexivity.
Qed.

Lemma split_on_append c s t :
  ~ occurs c s ->
  split_on c (s +:+ String c t)%string = s :: split_on c t.
Proof.
  induction s as [|a s IH]; intros Hs.
  - change (split_on c (String c t) = EmptyString :: split_on c t).
    cbn [split_on]. destruct (Ascii.eqb_spec c c); [reflexivity|congruence].
  - cbn [occurs] in Hs.
    change (split_on c (String a (s +:+ String c t))
            = String a s :: split_on c t).
    cbn [split_on]. destruct (Ascii.eqb_spec a c) as [->|Hne]; [tauto|].
    rewrite IH by tauto. reflexivity.
Qed.

Lemma split_on_concat c (symbols : list string) :
  symbols <> [] -> Forall (fun s => ~ occurs c s) symbols ->
  split_on c (String.concat (String c EmptyString) symbols) = symbols.
Proof.
  intros Hne Hall. induction Hall as [|s symbols Hs Hall IH]; [done|].
  destruct symbols as [|s' symbols].
  - cbn [String.concat]. by apply split_on_no_separator.
  - rewrite concat_cons_cons.
    change (String c EmptyString +:+ ?t)%string with (String c t).
    rewrite split_on_append by done. by rewrite IH.
Qed.

(** X15.  In word mode, when every entry is quantised to a key of the
    vocabulary and no vocabulary symbol holds the separator character, the
    text returned by [dataset_to_str] for an array with at least one entry
    splits at the separator into exactly the looked-up symbols, one per
    entry and in the order of the entries. *)
Theorem decoded_text_splits_into_symbols
    sep_char fmt self (Y : list npfloat) (symbols : list string) :
  sep_by_type self = "word" -> Y <> [] ->
  Forall2 (fun v s => lookup_float (int_to_data self)
                        (quantize fmt (vocabulary_size self) v) = Some s)
          Y symbols ->
  Forall (fun s => ~ occurs sep_char s) symbols ->
  exists t,
    dataset_to_str sep_char fmt self Y = Ok t /\
    split_on sep_char t = symbols /\ length symbols = length Y.
Proof.
  intros Hmode HY Hlook Hsep.
  exists (String.concat (SEPARATOR sep_char) symbols). split.
  - unfold dataset_to_str.
    rewrite (comprehension_getitem_float _ _ symbols) by (by apply Forall2_fmap_l).
    cbn [mbind outcome_bind]. by rewrite bool_decide_eq_true_2.
  - split; [|symmetry; by eapply Forall2_length].
    apply split_on_concat; [|done].
    intros ->. apply Forall2_nil_inv_r in Hlook. done.
Qed.

Lemma decoded_text_splits_into_symbols_witness :
  sep_by_type (dc_abc "word") = "word" /\
  [Fin (1 # 10); Fin (1 # 2); Fin 5] <> [] /\
  Forall2 (fun v s => lookup_float (int_to_data (dc_abc "word"))
                        (quantize binary64 (vocabulary_size (dc_abc "word")) v)
                      = Some s)
          [Fin (1 # 10); Fin (1 # 2); Fin 5] ["a"; "c"; "c"] /\
  Forall (fun s => ~ occurs sep128 s) ["a"; "c"; "c"] /\
  exists t,
    dataset_to_str sep128 binary64 (dc_abc "word")
      [Fin (1 # 10); Fin (1 # 2); Fin 5] = Ok t /\
    split_on sep128 t = ["a"; "c"; "c"] /\
    length ["a"; "c"; "c"] = length [Fin (1 # 10); Fin (1 # 2); Fin 5].
Proof.
  assert (H1 : Forall2 (fun v s => lookup_float (int_to_data (dc_abc "word"))
                        (quantize binary64 (vocabulary_size (dc_abc "word")) v)
                      = Some s)
          [Fin (1 # 10); Fin (1 # 2); Fin 5] ["a"; "c"; "c"])
    by (repeat constructor; vm_compute; reflexivity).
  assert (H2 : Forall (fun s => ~ occurs sep128 s) ["a"; "c"; "c"]).
  { repeat constructor; cbn [occurs]; intros [H|[]]; discriminate H. }
  split; [reflexivity|]. split; [discriminate|].
  split; [exact H1|]. split; [exact H2|].
  apply (decoded_text_splits_into_symbols sep128 binary64 (dc_abc "word")
           [Fin (1 # 10); Fin (1 # 2); Fin 5] ["a"; "c"; "c"]);
    [reflexivity | discriminate | exact H1 | exact H2].
Defined.

(** ** The export step *)

(** X16.  [midi_to_txt] converts the listed MIDI files one after the other
    and does not isolate a failure: it returns when every conversion
    returns, and when a conversion raises after the files before it were
    converted, that exception leaves [midi_to_txt] and the files after it
    are not converted. *)
Theorem midi_to_txt_stops_at_first_failure
    (get_files_by_ext : string -> list string -> outcome (list string))
    (midi_to_txt_file : string -> string -> string -> outcome unit)
    self (files : list string) :
  get_files_by_ext (dir_path self) MIDI_EXTS = Ok files ->
  (Forall (fun f => midi_to_txt_file f (dir_path self) (dir_path self) = Ok tt) files ->
   midi_to_txt get_files_by_ext midi_to_txt_file self = Ok tt) /\
  (forall pre f post e,
     files = pre ++ f :: post ->
     Forall (fun g => midi_to_txt_file g (dir_path self) (dir_path self) = Ok tt) pre ->
     midi_to_txt_file f (dir_path self) (dir_path self) = Raise e ->
     midi_to_txt get_files_by_ext midi_to_txt_file self = Raise e).
Proof.
  intros Hfiles. unfold midi_to_txt. rewrite Hfiles. cbn [mbind outcome_bind].
  assert (Hok : forall l : list string,
            Forall (fun f => midi_to_txt_file f (dir_path self) (dir_path self) = Ok tt) l ->
            for_each (fun (_ : unit) midifile =>
                        midi_to_txt_file midifile (dir_path self) (dir_path self))
                     l tt = Ok tt).
  { induction 1 as [|f l Hf _ IH]; [reflexivity|].
    cbn [for_each]. rewrite Hf. exact IH. }
  split; [apply Hok|].
  intros pre f post e -> Hpre Hf.
  rewrite for_each_app, (Hok pre Hpre). cbn [mbind outcome_bind for_each].
  by rewrite Hf.
Qed.

Lemma midi_to_txt_stops_at_first_failure_witness :
  three_midis (dir_path dc_word) MIDI_EXTS = Ok ["a.mid"; "bad.mid"; "c.mid"] /\
  ["a.mid"; "bad.mid"; "c.mid"] = ["a.mid"] ++ "bad.mid" :: ["c.mid"] /\
  Forall (fun g => fails_on_bad g (dir_path dc_word) (dir_path dc_word) = Ok tt)
         ["a.mid"] /\
  fails_on_bad "bad.mid" (dir_path dc_word) (dir_path dc_word) = Raise ValueError /\
  midi_to_txt three_midis fails_on_bad dc_word = Raise ValueError.
Proof.
  assert (H : Forall (fun g => fails_on_bad g (dir_path dc_word) (dir_path dc_word) = Ok tt)
         ["a.mid"]) by (repeat constructor).
  split; [reflexivity|]. split; [reflexivity|]. split; [exact H|].
  split; [reflexivity|].
  apply (midi_to_txt_stops_at_first_failure three_midis fails_on_bad dc_word
           ["a.mid"; "bad.mid"; "c.mid"] eq_refl)
    with (pre := ["a.mid"]) (f := "bad.mid") (post := ["c.mid"]);
    [reflexivity | exact H | reflexivity].
Defined.

(** ** Corpora with short files *)

Lemma setitem_ok (X : tensor) k (v : matrix) :
  0 <= k < Z.of_nat (length X) -> length v = NOTES ->
  exists X', setitem X k v = Ok X'.
Proof.
  intros Hk Hv. unfold setitem, py_index.
  destruct (Z.ltb_spec k 0); [lia|].
  destruct (Z.leb_spec 0 k); [|lia].
  destruct (Z.ltb_spec k (Z.of_nat (length X))); [|lia].
  cbn [andb mbind outcome_bind]. rewrite broadcast_rows_full by done.
  by eexists.
Qed.

Lemma grow_ok nin nout k b :
  0 <= nin -> 0 <= nout -> 0 < extend_sz b ->
  length (buf_X b) = length (buf_Y b) -> 0 <= k <= Z.of_nat (length (buf_X b)) ->
  exists b',
    grow nin nout k b = Ok b' /\ 0 < extend_sz b' /\
    length (buf_X b') = length (buf_Y b') /\ k < Z.of_nat (length (buf_X b')).
Proof.
  intros Hin Hout Hext Hlen Hk. unfold grow.
  destruct (Z.geb_spec k (Z.of_nat (length (buf_X b)))).
  - rewrite !np_zeros_ok by lia. cbn [mbind outcome_bind].
    eexists. split; [reflexivity|]. cbn [buf_X buf_Y extend_sz].
    rewrite !length_app, !repeat_length. lia.
  - exists b. repeat split; first [done | lia].
Qed.

Section AnyFile.

Variables (T step nin nout start : Z) (dataset : matrix).
Hypothesis Hm : timestep_matrix T dataset.
Hypothesis Hin : 0 <= nin.
Hypothesis Hout : 0 <= nout.
Hypothesis Hstep : 1 <= step.

Lemma example_body_ok b i :
  0 < extend_sz b -> length (buf_X b) = length (buf_Y b) ->
  0 <= start + i <= Z.of_nat (length (buf_X b)) ->
  0 <= i < (T - (nin + nout)) / step ->
  exists b',
    example_body dataset step nin nout (nin + nout) start b i = Ok b' /\
    0 < extend_sz b'.
Proof.
  intros Hext Hlen Hpos Hi. unfold example_body.
  erewrite input_x_ok, output_y_ok by eassumption. cbn [mbind outcome_bind].
  destruct (grow_ok nin nout (start + i) b Hin Hout Hext Hlen Hpos)
    as (b1 & -> & Hext1 & Hlen1 & Hlt). cbn [mbind outcome_bind].
  destruct (setitem_ok (buf_X b1) (start + i)
              (slice_cols (i * step) (i * step + nin) dataset)) as [X' ->];
    [lia | rewrite length_slice_cols; apply Hm |].
  cbn [mbind outcome_bind].
  destruct (setitem_ok (buf_Y b1) (start + i)
              (slice_cols (i * step + nin) (i * step + nin + nout) dataset))
    as [Y' ->]; [lia | rewrite length_slice_cols; apply Hm |].
  cbn [mbind outcome_bind]. by eexists.
Qed.

Lemma inner_loop_ok (k : nat) :
  forall (i0 : nat) b,
    0 < extend_sz b -> length (buf_X b) = length (buf_Y b) ->
    0 <= start + Z.of_nat i0 <= Z.of_nat (length (buf_X b)) ->
    Z.of_nat (i0 + k) <= (T - (nin + nout)) / step ->
    exists b',
      for_each (example_body dataset step nin nout (nin + nout) start)
               (map Z.of_nat (seq i0 k)) b = Ok b' /\
      0 < extend_sz b'.
Proof.
  induction k as [|k IH]; intros i0 b Hext Hlen Hpos Hk.
  - by exists b.
  - cbn [seq map for_each].
    destruct (example_body_ok b (Z.of_nat i0) Hext Hlen Hpos) as (b1 & Hb1 & Hext1);
      [lia|].
    rewrite Hb1. cbn [mbind outcome_bind].
    destruct (example_body_lengths _ _ _ _ _ _ _ _ _ Hb1 Hlen) as (Hlen1 & _ & Hle).
    apply IH; [done | done | lia | lia].
Qed.

Lemma file_body_ok b s :
  0 < extend_sz b -> length (buf_X b) = length (buf_Y b) ->
  0 <= s <= Z.of_nat (length (buf_X b)) ->
  start = s ->
  0 <= s + (T - (nin + nout)) / step ->
  exists b',
    file_body step nin nout (nin + nout) (b, s) dataset
    = Ok (b', s + (T - (nin + nout)) / step) /\
    0 < extend_sz b'.
Proof.
  intros Hext Hlen Hs <- Hnext. unfold file_body, num_examples, floordiv.
  rewrite (shape1_timestep_matrix T) by done.
  destruct (Z.eqb_spec step 0); [lia|]. cbn [mbind outcome_bind]. unfold range.
  destruct (Z.le_gt_cases 0 ((T - (nin + nout)) / step)) as [Hn|Hn].
  - destruct (inner_loop_ok (Z.to_nat ((T - (nin + nout)) / step)) 0%nat b)
      as (b' & -> & Hext'); [done | done | lia | lia |].
    cbn [mbind outcome_bind]. by exists b'.
  - replace (Z.to_nat ((T - (nin + nout)) / step)) with 0%nat by lia.
    cbn [seq map for_each mbind outcome_bind]. by exists b.
Qed.

End AnyFile.

Lemma file_loop_ok step nin nout (datasets : list matrix) :
  0 <= nin -> 0 <= nout -> 1 <= step ->
  Forall (fun m => exists T, timestep_matrix T m) datasets ->
  forall b s,
    0 < extend_sz b -> length (buf_X b) = length (buf_Y b) ->
    0 <= s <= Z.of_nat (length (buf_X b)) ->
    never_negative (nin + nout) step s datasets ->
    exists r, for_each (file_body step nin nout (nin + nout)) datasets (b, s) = Ok r.
Proof.
  intros Hin Hout Hstep Hall.
  induction Hall as [|m datasets [T Hm] _ IH]; intros b s Hext Hlen Hs Hnn.
  - by eexists.
  - cbn [never_negative] in Hnn. destruct Hnn as [Hn Hnn].
    rewrite (shape1_timestep_matrix T) in Hn, Hnn by done.
    cbn [for_each].
    destruct (file_body_ok T step nin nout s m Hm Hin Hout Hstep b s
                Hext Hlen Hs eq_refl Hn) as (b1 & Hb1 & Hext1).
    rewrite Hb1. cbn [mbind outcome_bind].
    destruct (file_body_index _ _ _ _ _ _ _ _ _ Hb1 Hlen) as (_ & Hlen1 & _ & Hle);
      [lia|].
    apply IH; [done | done | lia | done].
Qed.

Lemma never_negative_total total step (datasets : list matrix) :
  forall s, 0 <= s -> never_negative total step s datasets ->
    0 <= s + signed_total total step datasets.
Proof.
  induction datasets as [|m datasets IH]; intros s Hs Hnn.
  - unfold signed_total. cbn [foldr]. lia.
  - cbn [never_negative] in Hnn. destruct Hnn as [Hn Hnn].
    specialize (IH _ Hn Hnn). unfold signed_total in *. cbn [foldr]. lia.
Qed.

(** X18.  A file narrower than one window pair raises nothing as long as
    the running index stays non-negative: when the files are 128-row
    matrices of any width and [file_example_start_idx] is negative after
    none of them, [txt_to_dataset] returns, and the arrays have as many
    rows as the signed per-file values of line 97 add up to. *)
Theorem short_files_are_silent
    self (datasets : list matrix) nin nout step :
  0 <= nin -> 0 <= nout -> 1 <= step ->
  Forall (fun m => exists T, timestep_matrix T m) datasets ->
  never_negative (nin + nout) step 0 datasets ->
  exists X Y : tensor,
    txt_to_dataset self datasets (Some nin) (Some nout) step = Ok (X, Y) /\
    Z.of_nat (length X) = signed_total (nin + nout) step datasets /\
    Z.of_nat (length Y) = signed_total (nin + nout) step datasets.
Proof.
  intros Hin Hout Hstep Hall Hnn.
  assert (Hret : exists X Y,
            txt_to_dataset self datasets (Some nin) (Some nout) step = Ok (X, Y)).
  { unfold txt_to_dataset.
    cbn [num_input_size num_output_size add_int mbind outcome_bind from_option id].
    rewrite !np_zeros_ok by lia. cbn [mbind outcome_bind].
    destruct (file_loop_ok step nin nout datasets Hin Hout Hstep Hall
                (mkBuf (repeat (np_zeros_row nin) (Z.to_nat 10000))
                       (repeat (np_zeros_row nout) (Z.to_nat 10000)) 10000) 0)
      as [[b n] ->]; cbn [buf_X buf_Y extend_sz];
      [lia | by rewrite !repeat_length | rewrite repeat_length; lia | done |].
    cbn [mbind outcome_bind]. by eexists _, _. }
  destruct Hret as (X & Y & Hret). exists X, Y. split; [exact Hret|].
  pose proof (never_negative_total _ _ _ _ (Z.le_refl 0) Hnn) as Hsum.
  rewrite Z.add_0_l in Hsum.
  apply txt_to_dataset_returns in Hret
    as (nout' & b & Hout' & Hlen & Hle & -> & ->).
  injection Hout' as <-. cbn [num_input_size] in *.
  split; apply length_py_slice_to; lia.
Qed.

Lemma ramps_are_timestep_matrices (widths : list Z) :
  Forall (fun T => 0 <= T) widths ->
  Forall (fun m => exists T, timestep_matrix T m) (map ramp_Z widths).
Proof.
  intros H. apply Forall_fmap. eapply Forall_impl; [exact H|].
  intros T HT. exists T. by apply ramp_Z_timestep_matrix.
Qed.

Lemma short_files_are_silent_witness :
  0 <= 16 /\ 0 <= 1 /\ 1 <= 1 /\
  Forall (fun m => exists T, timestep_matrix T m) (map ramp_Z [30; 10; 25]) /\
  never_negative (16 + 1) 1 0 (map ramp_Z [30; 10; 25]) /\
  exists X Y : tensor,
    txt_to_dataset dc_word (map ramp_Z [30; 10; 25]) (Some 16) (Some 1) 1 = Ok (X, Y) /\
    Z.of_nat (length X) = signed_total (16 + 1) 1 (map ramp_Z [30; 10; 25]) /\
    Z.of_nat (length Y) = signed_total (16 + 1) 1 (map ramp_Z [30; 10; 25]).
Proof.
  assert (H1 : Forall (fun m => exists T, timestep_matrix T m) (map ramp_Z [30; 10; 25])).
  { apply ramps_are_timestep_matrices. repeat constructor; lia. }
  assert (H2 : never_negative (16 + 1) 1 0 (map ramp_Z [30; 10; 25])).
  { repeat split; vm_compute; discriminate. }
  split; [lia|]. split; [lia|]. split; [lia|]. split; [exact H1|]. split; [exact H2|].
  apply (short_files_are_silent dc_word (map ramp_Z [30; 10; 25]) 16 1 1);
    [lia | lia | lia | exact H1 | exact H2].
Defined.
